(** * ps08/experiment.py: motion-history driver and nearest-neighbour matcher

    A shallow embedding of the three functions of [experiment.py] that do
    work of their own: [build_motion_history_image], the feature step of
    [get_cs_moment_features] and [match_features].

    Conventions of the embedding
    - A Python [dict] is iterated by the code with [.items()]; the order of
      that iteration decides ties, so a dict is an association list in
      iteration order.
    - An identity key is the tuple [(action, participant, trial)] of Python
      integers: a triple of [Z].
    - A [numpy] 2-D array is a list of rows.
    - A binary64 number is a value of [float64] below: the three special
      values the code can meet ([nan], [-inf], [+inf]) are kept apart from
      the finite ones, comparisons and divisions by zero follow IEEE 754,
      and finite values are exact rationals (the sign of zero is not
      represented).  The tallies of the confusion matrix are whole
      numbers, on which binary64 addition is exact below [2^53].  An
      IEEE 754 operation returns the exact result rounded to 53 significant
      bits: [Binary64.rounded] is that rounding, applied where a statement
      is about the rounded values.
    - A Python exception is the [Raise] outcome of [result]. *)

From Stdlib Require Import ZArith QArith Qround Qcanon Qpower Lia Lqa.
From stdpp Require Import base tactics option list strings gmap.

Set Default Proof Using "Type".
Local Open Scope Z_scope.

(** ** Outcomes of a Python call *)

Inductive exn : Type :=
| ValueError
| IndexError
| AttributeError
| TypeError.

Inductive result (A : Type) : Type :=
| Ok (a : A)
| Raise (e : exn).

Arguments Ok {A} a.
Arguments Raise {A} e.

(** Sequencing: the first exception raised ends the computation. *)
#[export] Instance result_bind : MBind result :=
  fun A B (k : A -> result B) (r : result A) =>
    match r with
    | Ok a => k a
    | Raise e => Raise e
    end.

#[export] Instance result_ret : MRet result := fun A a => Ok a.

(** ** Binary64 values *)

Module Float64.

Inductive float64 : Type :=
| NaN
| NegInf
| Fin (q : Q)
| PosInf.

Definition zero : float64 := Fin 0.
Definition one : float64 := Fin 1.

Definition Qltb (a b : Q) : bool :=
  match (a ?= b)%Q with Lt => true | _ => false end.

Definition Qleb (a b : Q) : bool :=
  match (a ?= b)%Q with Gt => false | _ => true end.

Definition Qzerob (a : Q) : bool :=
  match (a ?= 0)%Q with Eq => true | _ => false end.

(** [x < y]: false as soon as one side is [nan]. *)
Definition flt (x y : float64) : bool :=
  match x, y with
  | NaN, _ | _, NaN => false
  | _, NegInf => false
  | NegInf, _ => true
  | PosInf, _ => false
  | Fin _, PosInf => true
  | Fin a, Fin b => Qltb a b
  end.

(** [x <= y]. *)
Definition fle (x y : float64) : bool :=
  match x, y with
  | NaN, _ | _, NaN => false
  | NegInf, _ => true
  | _, PosInf => true
  | _, NegInf => false
  | PosInf, _ => false
  | Fin a, Fin b => Qleb a b
  end.

Definition fneg (x : float64) : float64 :=
  match x with
  | NaN => NaN
  | NegInf => PosInf
  | PosInf => NegInf
  | Fin a => Fin (Qred (- a))
  end.

(** [x + y]. *)
Definition fadd (x y : float64) : float64 :=
  match x, y with
  | NaN, _ | _, NaN => NaN
  | PosInf, NegInf | NegInf, PosInf => NaN
  | PosInf, _ | _, PosInf => PosInf
  | NegInf, _ | _, NegInf => NegInf
  | Fin a, Fin b => Fin (Qred (a + b))
  end.

Definition fsub (x y : float64) : float64 := fadd x (fneg y).

(** The infinity of the sign of [a], for [a] not zero. *)
Definition inf_of_sign (a : Q) : float64 :=
  if Qltb a 0 then NegInf else PosInf.

(** [x * y]. *)
Definition fmul (x y : float64) : float64 :=
  match x, y with
  | NaN, _ | _, NaN => NaN
  | Fin a, Fin b => Fin (Qred (a * b))
  | Fin a, PosInf | PosInf, Fin a =>
      if Qzerob a then NaN else inf_of_sign a
  | Fin a, NegInf | NegInf, Fin a =>
      if Qzerob a then NaN else fneg (inf_of_sign a)
  | PosInf, PosInf | NegInf, NegInf => PosInf
  | PosInf, NegInf | NegInf, PosInf => NegInf
  end.

(** [x / y]: [0/0] is [nan], a non-zero finite value over zero is an
    infinity, as numpy computes them (it warns and carries on). *)
Definition fdiv (x y : float64) : float64 :=
  match x, y with
  | NaN, _ | _, NaN => NaN
  | Fin a, Fin b =>
      if Qzerob b then (if Qzerob a then NaN else inf_of_sign a)
      else Fin (Qred (a / b))
  | Fin _, (PosInf | NegInf) => zero
  | PosInf, Fin b => if Qltb b 0 then NegInf else PosInf
  | NegInf, Fin b => if Qltb b 0 then PosInf else NegInf
  | (PosInf | NegInf), (PosInf | NegInf) => NaN
  end.

(** Square root, rounded down to a multiple of [2^-60] on finite values
    (binary64 keeps 53 significant bits). *)
Definition fsqrt (x : float64) : float64 :=
  match x with
  | NaN | NegInf => NaN
  | PosInf => PosInf
  | Fin a =>
      if Qltb a 0 then NaN
      else Fin (Qred (Z.sqrt (Qfloor (a * inject_Z (2 ^ 120))) # 2 ^ 60))
  end.

Definition is_nan (x : float64) : bool :=
  match x with NaN => true | _ => false end.

End Float64.
Export Float64.

(** ** The numpy operations the matcher uses *)

Module Numpy.

Abbreviation ndarray2 := (list (list float64)).

(** [np.zeros((n, n), dtype=np.float_)]; a negative dimension is refused. *)
Definition zeros (n : Z) : result ndarray2 :=
  if n <? 0 then Raise ValueError
  else Ok (replicate (Z.to_nat n) (replicate (Z.to_nat n) zero)).

(** An integer index along an axis of length [len]: [-len <= i < 0]
    counts from the end, anything outside [-len, len) is an IndexError. *)
Definition index (len : nat) (i : Z) : result nat :=
  if (0 <=? i) && (i <? Z.of_nat len) then Ok (Z.to_nat i)
  else if (- Z.of_nat len <=? i) && (i <? 0) then Ok (Z.to_nat (i + Z.of_nat len))
  else Raise IndexError.

(** [M[i, j] += v] *)
Definition iadd_item (M : ndarray2) (i j : Z) (v : float64) : result ndarray2 :=
  r ← index (length M) i;
  c ← index (length (default [] (M !! r))) j;
  Ok (alter (alter (fun x => fadd x v) c) r M).

(** [row.sum()]: the cells of a row, added up. *)
Definition sum (row : list float64) : float64 := foldl fadd zero row.

(** [M.sum(axis=1)] *)
Definition sum_axis1 (M : ndarray2) : list float64 := fmap sum M.

(** [M /= s[:, np.newaxis]]: every cell of row [i] is divided by [s[i]]. *)
Definition idiv_rows (M : ndarray2) (s : list float64) : ndarray2 :=
  zip_with (fun row d => fmap (fun c => fdiv c d) row) M s.

End Numpy.

(** ** match_features *)

(** The identity of a clip: [(action, participant, trial)]. *)
Abbreviation key := (Z * Z * Z)%type.

(** [k[0]] *)
Definition item0 (k : key) : Z := k.1.1.

Section Matcher.

(** A feature vector is handed to [compute_feature_difference] and to
    nothing else. *)
Context {features : Type}.

(** [compute_feature_difference] is defined in the [ps8] module, which
    the script imports; the matcher is verified for every such helper.
    Its third argument is the scale factor, [None] when the caller
    leaves it out. *)
Variable compute_feature_difference :
  features -> features -> option float64 -> float64.

Abbreviation features_dict := (list (key * features)).

(** Lines 153-159: one pass over [b_features_dict.items()], from the
    current [min_diff] and [best_match]. *)
Fixpoint scan_gallery (a_key : key) (a_features : features)
    (b_items : features_dict) (min_diff : float64) (best_match : option key)
    : float64 * option key :=
  match b_items with
  | [] => (min_diff, best_match)
  | (b_key, b_features) :: rest =>
      if bool_decide (a_key = b_key) then
        scan_gallery a_key a_features rest min_diff best_match
      else
        let diff := compute_feature_difference a_features b_features None in
        if flt diff min_diff then
          scan_gallery a_key a_features rest diff (Some b_key)
        else
          scan_gallery a_key a_features rest min_diff best_match
  end.

(** Lines 151-159: the nearest gallery entry of one query. *)
Definition nearest (a_key : key) (a_features : features)
    (b_features_dict : features_dict) : float64 * option key :=
  scan_gallery a_key a_features b_features_dict PosInf None.

(** Lines 151-162: the body of the outer loop. *)
Definition tally_query (b_features_dict : features_dict)
    (confusion_matrix : Numpy.ndarray2) (a_item : key * features)
    : result Numpy.ndarray2 :=
  let '(a_key, a_features) := a_item in
  let '(min_diff, best_match) := nearest a_key a_features b_features_dict in
  match best_match with
  | Some b => Numpy.iadd_item confusion_matrix (item0 a_key - 1) (item0 b - 1) one
  | None => Ok confusion_matrix
  end.

(** Lines 150-162: the outer loop over [a_features_dict.items()]. *)
Fixpoint tally_loop (a_items b_features_dict : features_dict)
    (confusion_matrix : Numpy.ndarray2) : result Numpy.ndarray2 :=
  match a_items with
  | [] => Ok confusion_matrix
  | a_item :: rest =>
      M ← tally_query b_features_dict confusion_matrix a_item;
      tally_loop rest b_features_dict M
  end.

(** Lines 149-162: the matrix of counts, before it is normalized. *)
Definition tally (a_features_dict b_features_dict : features_dict)
    (n_actions : Z) : result Numpy.ndarray2 :=
  confusion_matrix ← Numpy.zeros n_actions;
  tally_loop a_features_dict b_features_dict confusion_matrix.

(** Line 164 *)
Definition normalize_rows (confusion_matrix : Numpy.ndarray2) : Numpy.ndarray2 :=
  Numpy.idiv_rows confusion_matrix (Numpy.sum_axis1 confusion_matrix).

(** [match_features(a_features_dict, b_features_dict, n_actions, scale)] *)
Definition match_features (a_features_dict b_features_dict : features_dict)
    (n_actions : Z) (scale : float64) : result Numpy.ndarray2 :=
  confusion_matrix ← tally a_features_dict b_features_dict n_actions;
  Ok (normalize_rows confusion_matrix).

End Matcher.

(** ** build_motion_history_image *)

(** What [builder_class] must offer: a constructor taking the first frame
    and the keyword arguments, [process] (which updates the builder and
    returns the motion image) and [get_MHI].  Each of them may raise. *)
Record builder_class (frame kwargs : Type) : Type := {
  builder : Type;
  init : frame -> kwargs -> result builder;
  process : builder -> frame -> result (Numpy.ndarray2 * builder);
  get_MHI : builder -> result Numpy.ndarray2;
}.

Arguments builder {frame kwargs} _.
Arguments init {frame kwargs} _ _ _.
Arguments process {frame kwargs} _ _ _.
Arguments get_MHI {frame kwargs} _ _.

(** One call of [video.read()] inside the [try] block: a frame, or Ctrl+C
    pressed while the loop waits for it.  A source that has run dry (or
    cannot be read) returns [okay = False]: the end of the list. *)
Inductive read (frame : Type) : Type :=
| Frame (f : frame)
| KeyboardInterrupt.

Arguments Frame {frame} f.
Arguments KeyboardInterrupt {frame}.

Section Driver.

Context {frame kwargs : Type}.
Variable builder_class : builder_class frame kwargs.

(** The images handed to [cv2.imwrite], by file name, oldest first
    (each is written as [np.uint8(image * 255)]). *)
Abbreviation written := (list (string * Numpy.ndarray2)).

Record loop_state : Type := {
  mhi_builder : option (builder builder_class);
  mhi : option Numpy.ndarray2;
  frame_num : Z;
  saved : written;
}.

(** Lines 44-76: the loop over the video. *)
Fixpoint read_loop (video : list (read frame)) (save_frames : gmap Z string)
    (mhi_frame : option Z) (kw : kwargs) (st : loop_state) : result loop_state :=
  match video with
  | [] => Ok st
  | KeyboardInterrupt :: _ => Ok st
  | Frame f :: rest =>
      b ← match mhi_builder st with
          | None => init builder_class f kw
          | Some b => Ok b
          end;
      '(motion_image, b) ← process builder_class b f;
      let saved' :=
        match save_frames !! frame_num st with
        | Some filename => saved st ++ [(filename, motion_image)]
        | None => saved st
        end in
      if bool_decide (Some (frame_num st) = mhi_frame) then
        m ← get_MHI builder_class b;
        Ok {| mhi_builder := Some b; mhi := Some m;
              frame_num := frame_num st; saved := saved' |}
      else
        read_loop rest save_frames mhi_frame kw
          {| mhi_builder := Some b; mhi := mhi st;
             frame_num := frame_num st + 1; saved := saved' |}
  end.

(** [build_motion_history_image(builder_class, video_filename,
    save_frames, mhi_frame, mhi_filename, **kwargs)], on the reads that
    the opened video delivers.  [None.get_MHI()] is an AttributeError. *)
Definition build_motion_history_image (video : list (read frame))
    (save_frames : gmap Z string) (mhi_frame : option Z)
    (mhi_filename : option string) (kw : kwargs)
    : result (Numpy.ndarray2 * written) :=
  st ← read_loop video save_frames mhi_frame kw
         {| mhi_builder := None; mhi := None; frame_num := 0; saved := [] |};
  m ← match mhi st with
      | Some m => Ok m
      | None =>
          match mhi_builder st with
          | Some b => get_MHI builder_class b
          | None => Raise AttributeError
          end
      end;
  Ok (m, match mhi_filename with
         | Some filename => saved st ++ [(filename, m)]
         | None => saved st
         end).

(** The builder after it has processed the given frames in turn. *)
Fixpoint feed (b : builder builder_class) (frames : list frame)
    : result (builder builder_class) :=
  match frames with
  | [] => Ok b
  | f :: rest => '(_, b') ← process builder_class b f; feed b' rest
  end.

End Driver.

(** ** get_cs_moment_features *)

(** An image as [Moments] receives it: the float MHI, or the [uint8] MEI. *)
Inductive image : Type :=
| Float64Image (a : Numpy.ndarray2)
| Uint8Image (a : list (list Z)).

(** [mhi > 0], elementwise *)
Definition gt0 (a : Numpy.ndarray2) : list (list bool) :=
  fmap (fmap (M:=list) (fun x => flt zero x)) a.

(** [np.uint8(mask)] of a boolean array *)
Definition uint8_of_bool (mask : list (list bool)) : list (list Z) :=
  fmap (fmap (M:=list) (fun b : bool => if b then 1 else 0)) mask.

(** Line 121: [mei = np.uint8(mhi > 0)] *)
Definition mei_of_mhi (mhi : Numpy.ndarray2) : list (list Z) :=
  uint8_of_bool (gt0 mhi).

Section Features.

Context {frame : Type}.

(** From the [ps8] module: the builder class and the two accessors of
    [Moments(image)]. *)
Variable MotionHistoryBuilder : builder_class frame (gmap string Z).
Variable get_central_moments get_scaled_moments : image -> list float64.

(** The reads delivered by the video file of a clip. *)
Variable open_video : key -> list (read frame).

(** Lines 121-127: both feature vectors of one clip, MHI part first. *)
Definition clip_features (mhi : Numpy.ndarray2)
    : list float64 * list float64 :=
  let mei := mei_of_mhi mhi in
  (get_central_moments (Float64Image mhi) ++ get_central_moments (Uint8Image mei),
   get_scaled_moments (Float64Image mhi) ++ get_scaled_moments (Uint8Image mei)).

(** [range(1, n + 1)] three times over, in loop order. *)
Definition clip_keys (n_actions n_participants n_trials : Z) : list key :=
  a ← seqZ 1 n_actions; p ← seqZ 1 n_participants; t ← seqZ 1 n_trials;
  [(a, p, t)].

(** Lines 115-116: [dict(default_params, **custom_params.get(k, {}))]
    is handed over as keyword arguments; [mhi_frame] is a named
    parameter of the driver and the rest reaches the constructor.  The
    dicts are taken to name [mhi_frame] and parameters of the builder, as
    those of the script do: a dict that names another parameter of the
    driver ([save_frames], [mhi_filename], [builder_class],
    [video_filename]) is not covered. *)
Definition clip_mhi (default_params : gmap string Z)
    (custom_params : gmap key (gmap string Z)) (k : key)
    : result Numpy.ndarray2 :=
  let params := default ∅ (custom_params !! k) ∪ default_params in
  '(mhi, _) ← build_motion_history_image MotionHistoryBuilder (open_video k)
                ∅ (params !! "mhi_frame") None (delete "mhi_frame" params);
  Ok mhi.

(** [get_cs_moment_features]: the two dicts, entries in insertion order. *)
Definition get_cs_moment_features (n_actions n_participants n_trials : Z)
    (default_params : gmap string Z) (custom_params : gmap key (gmap string Z))
    : result (list (key * list float64) * list (key * list float64)) :=
  entries ← mapM (fun k =>
               mhi ← clip_mhi default_params custom_params k;
               Ok (k, clip_features mhi))
             (clip_keys n_actions n_participants n_trials);
  Ok (fmap (fun e => (e.1, e.2.1)) entries, fmap (fun e => (e.1, e.2.2)) entries).

End Features.

(** ** The helpers of the [ps8] module, from the specification *)

Module Ps8.

(** Modelled from the spec: [compute_feature_difference] of the [ps8]
    module, which the script imports and calls.  The distance of two
    descriptors is the Euclidean distance of the vectors, multiplied by the
    scale factor when the caller supplies one. *)
Definition compute_feature_difference (a_features b_features : list float64)
    (scale : option float64) : float64 :=
  let squares := zip_with (fun x y => fmul (fsub x y) (fsub x y)) a_features b_features in
  let distance := fsqrt (Numpy.sum squares) in
  match scale with
  | None => distance
  | Some s => fmul s distance
  end.

(** Modelled from the spec: the state of [MotionHistoryBuilder] of the
    [ps8] module: the history buffer, the previous grayscale frame (none
    before the first [process]), the motion threshold and the decay
    window. *)
Record accumulator : Type := {
  H : list (list Z);
  previous : option (list (list Z));
  theta : Z;
  tau : Z;
}.

(** Modelled from the spec: the Frame Differencer of [ps8]; a pixel moved
    when its intensity changed by more than [theta]. *)
Definition difference (theta : Z) (previous current : list (list Z))
    : list (list bool) :=
  zip_with (zip_with (fun p c => theta <? Z.abs (c - p))) previous current.

(** Modelled from the spec: the MHI of [ps8]'s builder, [H / tau]. *)
Definition normalized (acc : accumulator) : Numpy.ndarray2 :=
  fmap (fmap (M:=list) (fun h => fdiv (Fin (inject_Z h)) (Fin (inject_Z (tau acc))))) (H acc).

(** Modelled from the spec: the constructor of [ps8]'s builder; the buffer
    starts at zero with the shape of the first frame, a non-positive [tau]
    or a negative [theta] is rejected. *)
Definition construct (first_frame : list (list Z)) (kw : gmap string Z)
    : result accumulator :=
  match kw !! "theta", kw !! "tau" with
  | Some th, Some ta =>
      if (ta <=? 0) || (th <? 0) then Raise ValueError
      else Ok {| H := fmap (fmap (M:=list) (fun _ => 0)) first_frame; previous := None;
                 theta := th; tau := ta |}
  | _, _ => Raise TypeError
  end.

(** Modelled from the spec: [process] of [ps8]'s builder; a moved pixel is
    set to [tau], any other decays by one down to zero; the first frame
    has no predecessor and shows no motion; a frame of another shape is
    refused. *)
Definition step (acc : accumulator) (next_frame : list (list Z))
    : result (Numpy.ndarray2 * accumulator) :=
  if bool_decide (fmap length next_frame = fmap length (H acc)) then
    let mask :=
      match previous acc with
      | None => fmap (fmap (M:=list) (fun _ => false)) next_frame
      | Some p => difference (theta acc) p next_frame
      end in
    let acc' :=
      {| H := zip_with (zip_with (fun (m : bool) h =>
                 if m then tau acc else Z.max 0 (h - 1))) mask (H acc);
         previous := Some next_frame; theta := theta acc; tau := tau acc |} in
    Ok (normalized acc', acc')
  else Raise ValueError.

(** Modelled from the spec: the [MotionHistoryBuilder] class of [ps8]. *)
Definition MotionHistoryBuilder : builder_class (list (list Z)) (gmap string Z) := {|
  builder := accumulator;
  init := construct;
  process := step;
  get_MHI := fun acc => Ok (normalized acc);
|}.

End Ps8.

(** ** Rounding to binary64 *)

Module Binary64.

(** [2^k] *)
Definition pow2 (k : Z) : Q := (2 ^ k)%Q.

(** The exponent [e] of a positive rational, [2^e <= x < 2^(e+1)]. *)
Definition exponent (x : Q) : Z :=
  let g := Z.log2 (Qnum x) - Z.log2 (Zpos (Qden x)) in
  if Qle_bool (pow2 g) x then g else g - 1.

(** The nearest integer, the even one of two equally near. *)
Definition nearest_even (m : Q) : Z :=
  let f := Qfloor m in
  match (m - inject_Z f ?= 1 # 2)%Q with
  | Lt => f
  | Gt => f + 1
  | Eq => if Z.even f then f else f + 1
  end.

(** The nearest value with a significand of 53 bits, ties to even (the
    rounding of binary64 wherever the result is neither subnormal nor
    beyond the largest finite value). *)
Definition round64 (x : Q) : Q :=
  match (x ?= 0)%Q with
  | Eq => 0%Q
  | Gt => let e := exponent x in
          Qred (inject_Z (nearest_even (x * pow2 (52 - e))) * pow2 (e - 52))
  | Lt => let e := exponent (- x) in
          Qred (- (inject_Z (nearest_even (- x * pow2 (52 - e))) * pow2 (e - 52)))
  end.

(** The unit roundoff, [2^-53]. *)
Definition u : Q := 1 # 9007199254740992.

(** A value as binary64 holds it. *)
Definition rounded (x : float64) : float64 :=
  match x with
  | Fin q => Fin (round64 q)
  | _ => x
  end.

(** [row.sum()] in binary64: every addition is rounded. *)
Definition sum (row : list float64) : float64 :=
  foldl (fun acc c => rounded (fadd acc c)) zero row.

End Binary64.

(** ** Vocabulary of the statements *)

(** The cell [M[i][j]], if there is one. *)
Definition cell (M : Numpy.ndarray2) (i j : nat) : option float64 :=
  M !! i ≫= (.!! j).

(** The position an integer index denotes along an axis of length [n]. *)
Definition wrap (n : Z) (i : Z) : nat :=
  Z.to_nat (if i <? 0 then i + n else i).

(** An index that an axis of length [n] accepts. *)
Definition in_bounds (n i : Z) : Prop := - n ≤ i < n.

(** An [n] by [n] array. *)
Definition square (n : nat) (M : Numpy.ndarray2) : Prop :=
  length M = n ∧ Forall (fun row => length row = n) M.

(** The cells of an [n] by [n] array hold the whole numbers [c i j]. *)
Definition holds_counts (n : nat) (M : Numpy.ndarray2) (c : nat -> nat -> nat) : Prop :=
  ∀ i j, (i < n)%nat → (j < n)%nat →
    cell M i j = Some (Fin (inject_Z (Z.of_nat (c i j)))).

(** A row of whole numbers, as the matrix stores them. *)
Definition count_row (cs : list nat) : list float64 :=
  (fun c => Fin (inject_Z (Z.of_nat c))) <$> cs.

(** A row divided by its own sum. *)
Definition divided_row (row : list float64) : list float64 :=
  (fun c => fdiv c (Numpy.sum row)) <$> row.

(** A finite value between 0 and 1. *)
Definition is_share (x : float64) : Prop :=
  ∃ q, x = Fin q ∧ (0 <= q)%Q ∧ (q <= 1)%Q.

Section Vocabulary.

Context {features : Type}.
Variable compute_feature_difference :
  features -> features -> option float64 -> float64.

(** [best_match] of a query once its scan of the gallery is over. *)
Definition predicted (b_features_dict : list (key * features))
    (a_item : key * features) : option key :=
  (nearest compute_feature_difference a_item.1 a_item.2 b_features_dict).2.

(** The pair of indices at which line 162 adds the count of a query, when
    the query has a best match. *)
Definition ballot (b_features_dict : list (key * features))
    (a_item : key * features) : option (Z * Z) :=
  b ← predicted b_features_dict a_item;
  Some (item0 a_item.1 - 1, item0 b - 1).

(** A query whose count goes to row [i] and column [j] of an [n] by [n]
    matrix. *)
Definition lands (b_features_dict : list (key * features)) (n : Z)
    (i j : nat) (a_item : key * features) : Prop :=
  ∃ ij, ballot b_features_dict a_item = Some ij
        ∧ wrap n ij.1 = i ∧ wrap n ij.2 = j.

#[export] Instance lands_dec b_features_dict n i j a_item :
  Decision (lands b_features_dict n i j a_item).
Proof.
  unfold lands. destruct (ballot b_features_dict a_item) as [ij|].
  - destruct (decide (wrap n ij.1 = i ∧ wrap n ij.2 = j)) as [Hy|Hn].
    + left. exists ij. split; [reflexivity|exact Hy].
    + right. intros (ij' & Heq & Hw). inversion Heq; subst. exact (Hn Hw).
  - right. intros (ij' & Heq & _). discriminate.
Defined.

(** How many queries add their count at row [i], column [j]. *)
Definition tallied (a_features_dict b_features_dict : list (key * features))
    (n : Z) (i j : nat) : nat :=
  length (filter (lands b_features_dict n i j) a_features_dict).

(** Every query that has a best match addresses a cell of the matrix. *)
Definition ballots_in_bounds (a_features_dict b_features_dict : list (key * features))
    (n : Z) : Prop :=
  ∀ a_item ij, a_item ∈ a_features_dict →
    ballot b_features_dict a_item = Some ij →
    in_bounds n ij.1 ∧ in_bounds n ij.2.

(** A query adds its count somewhere in row [i]. *)
Definition lands_in_row (b_features_dict : list (key * features)) (n : Z)
    (i : nat) (a_item : key * features) : Prop :=
  ∃ ij, ballot b_features_dict a_item = Some ij ∧ wrap n ij.1 = i.

End Vocabulary.

(** ** Sample data for the examples *)

Module Sample.

(** A 16-dimensional descriptor whose first two coordinates are given. *)
Definition descriptor (x y : Z) : list float64 :=
  Fin (inject_Z x) :: Fin (inject_Z y) :: replicate 14 zero.

(** Four clips: two of action 1 and two of action 2. *)
Definition clips : list (key * list float64) :=
  [((1, 1, 1), descriptor 0 0); ((1, 2, 1), descriptor 3 4);
   ((2, 1, 1), descriptor 10 0); ((2, 2, 1), descriptor 13 4)].

(** Three clips; the last two are equally far from the first. *)
Definition tied : list (key * list float64) :=
  [((1, 1, 1), descriptor 0 0); ((2, 1, 1), descriptor 3 4);
   ((3, 1, 1), descriptor 4 3)].

(** Six clips of three actions, not all nearest to their own action. *)
Definition mixed : list (key * list float64) :=
  [((1, 1, 1), descriptor 0 0); ((1, 2, 1), descriptor 3 4);
   ((1, 3, 1), descriptor 9 0); ((2, 1, 1), descriptor 10 0);
   ((3, 1, 1), descriptor 0 1); ((3, 2, 1), descriptor 3 5)].

(** Three clips, one of them filed under action index 0. *)
Definition stray : list (key * list float64) :=
  [((0, 1, 1), descriptor 0 0); ((1, 1, 1), descriptor 3 4);
   ((2, 1, 1), descriptor 10 0)].

(** A helper that differs from [Ps8.compute_feature_difference] exactly
    on descriptors at distance zero. *)
Definition nan_at_zero (a b : list float64) (scale : option float64) : float64 :=
  match Ps8.compute_feature_difference a b scale with
  | Fin q => if Qzerob q then NaN else Fin q
  | d => d
  end.

(** A video of three 1 by 2 frames; the right pixel changes once. *)
Definition video : list (read (list (list Z))) :=
  [Frame [[0; 0]]; Frame [[0; 50]]; Frame [[0; 50]]].

Definition params : gmap string Z := {["theta" := 10; "tau" := 2]}.

(** The cells of an image as floats. *)
Definition cells (img : image) : Numpy.ndarray2 :=
  match img with
  | Float64Image a => a
  | Uint8Image a => fmap (fmap (M:=list) (fun z => Fin (inject_Z z))) a
  end.

(** A stand-in for the accessors of [Moments]: the eight sums of
    [x^p * y^q * I(x, y)] over the image, for the orders listed. *)
Definition orders : list (nat * nat) :=
  [(2, 0); (0, 2); (1, 1); (3, 0); (0, 3); (2, 1); (1, 2); (2, 2)]%nat.

Definition raw_moments (img : image) : list float64 :=
  (fun pq : nat * nat =>
     Numpy.sum (concat (imap (fun y row =>
       imap (fun x c => fmul (Fin (inject_Z (Z.of_nat (x ^ pq.1 * y ^ pq.2)))) c) row)
       (cells img)))) <$> orders.

End Sample.

(** * Properties *)

(** ** The motion-energy image *)

Lemma mei_cell (x : float64) :
  (if flt zero x then 1 else 0) = 0 ∨ (if flt zero x then 1 else 0) = 1.
Proof. destruct (flt zero x); auto. Qed.

Lemma mei_of_mhi_rows (mhi : Numpy.ndarray2) :
  mei_of_mhi mhi = fmap (fmap (M:=list) (fun x => if flt zero x then 1 else 0)) mhi.
Proof.
  unfold mei_of_mhi, uint8_of_bool, gt0.
  rewrite <- list_fmap_compose. apply list_fmap_ext. intros _ row _. simpl.
  now rewrite <- list_fmap_compose.
Qed.

(** C8: the MEI that the feature step derives from an MHI is [(MHI > 0)]
    cell by cell: it has the shape of the MHI, holds 1 exactly where the
    MHI is positive and 0 elsewhere, and is 0 everywhere when the MHI is;
    it is this image whose moments fill the second half of both
    descriptors. *)
Theorem mei_is_mhi_positive (mhi : Numpy.ndarray2) :
  (∀ i j x, mhi !! i ≫= (.!! j) = Some x →
     mei_of_mhi mhi !! i ≫= (.!! j) = Some (if flt zero x then 1 else 0))
  ∧ (∀ i j, mhi !! i ≫= (.!! j) = None → mei_of_mhi mhi !! i ≫= (.!! j) = None)
  ∧ (∀ row c, row ∈ mei_of_mhi mhi → c ∈ row → c = 0 ∨ c = 1)
  ∧ (Forall (Forall (eq zero)) mhi → Forall (Forall (eq 0)) (mei_of_mhi mhi))
  ∧ (∀ (central scaled : image -> list float64),
       clip_features central scaled mhi =
       (central (Float64Image mhi) ++ central (Uint8Image (mei_of_mhi mhi)),
        scaled (Float64Image mhi) ++ scaled (Uint8Image (mei_of_mhi mhi)))).
Proof.
  rewrite mei_of_mhi_rows. repeat split.
  - intros i j x Hx. rewrite list_lookup_fmap.
    destruct (mhi !! i) as [row|]; simpl in *; [|discriminate].
    rewrite list_lookup_fmap. now rewrite Hx.
  - intros i j Hx. rewrite list_lookup_fmap.
    destruct (mhi !! i) as [row|]; simpl in *; [|reflexivity].
    rewrite list_lookup_fmap. now rewrite Hx.
  - intros row c Hrow Hc.
    apply list_elem_of_fmap in Hrow as (r & -> & _).
    apply list_elem_of_fmap in Hc as (x & -> & _).
    apply mei_cell.
  - intros Hz. apply Forall_fmap. eapply Forall_impl; [exact Hz|].
    intros row Hrow. apply Forall_fmap. eapply Forall_impl; [exact Hrow|].
    intros x <-. reflexivity.
  - intros central scaled. unfold clip_features.
    now rewrite mei_of_mhi_rows.
Qed.

Lemma mei_is_mhi_positive_witness :
  mei_of_mhi [[zero; Fin (1 # 2)]; [one; zero]] = [[0; 1]; [1; 0]]
  ∧ Forall (Forall (eq 0)) (mei_of_mhi [[zero; zero]]).
Proof.
  split; [reflexivity|].
  apply (mei_is_mhi_positive [[zero; zero]]).
  repeat constructor.
Defined.

(** ** Order on binary64 values *)

Section Order.

Lemma Qltb_lt (a b : Q) : Qltb a b = true ↔ (a < b)%Q.
Proof. unfold Qltb. rewrite Qlt_alt. destruct (a ?= b)%Q; intuition congruence. Qed.

Lemma Qleb_le (a b : Q) : Qleb a b = true ↔ (a <= b)%Q.
Proof. unfold Qleb. rewrite Qle_alt. destruct (a ?= b)%Q; intuition congruence. Qed.

Lemma Qzerob_eq (a : Q) : Qzerob a = true ↔ (a == 0)%Q.
Proof. unfold Qzerob. rewrite Qeq_alt. destruct (a ?= 0)%Q; intuition congruence. Qed.

Lemma flt_irrefl (x : float64) : flt x x = false.
Proof.
  destruct x as [| |a|]; simpl; trivial.
  apply not_true_is_false. rewrite Qltb_lt. apply Qlt_irrefl.
Qed.

Lemma flt_trans (x y z : float64) :
  flt x y = true → flt y z = true → flt x z = true.
Proof.
  destruct x as [| |a|], y as [| |b|], z as [| |c|]; simpl; try congruence.
  rewrite !Qltb_lt. apply Qlt_trans.
Qed.

Lemma flt_fle (x y : float64) : flt x y = true → fle x y = true.
Proof.
  destruct x as [| |a|], y as [| |b|]; simpl; try congruence.
  rewrite Qltb_lt, Qleb_le. apply Qlt_le_weak.
Qed.

Lemma fle_flt_trans (x y z : float64) :
  fle x y = true → flt y z = true → flt x z = true.
Proof.
  destruct x as [| |a|], y as [| |b|], z as [| |c|]; simpl; try congruence.
  rewrite !Qltb_lt, Qleb_le. apply Qle_lt_trans.
Qed.

Lemma flt_not_fle (x y : float64) : flt x y = true → fle y x = false.
Proof.
  intros Hlt. apply not_true_is_false. intros Hle.
  pose proof (fle_flt_trans _ _ _ Hle Hlt) as H. rewrite flt_irrefl in H.
  discriminate.
Qed.

Lemma flt_below_inf (x : float64) :
  flt x PosInf = true ↔ x = NegInf ∨ ∃ q, x = Fin q.
Proof.
  destruct x as [| |a|]; simpl; split; try congruence; eauto.
  - intros [?|[q ?]]; discriminate.
  - intros [?|[q ?]]; discriminate.
Qed.

End Order.

(** ** One query against the gallery *)

Section Scan.

Context {features : Type}.
Variable compute_feature_difference :
  features -> features -> option float64 -> float64.

#[local] Abbreviation scan := (scan_gallery compute_feature_difference).
#[local] Abbreviation dist a b := (compute_feature_difference a b None).

(** An entry under the query's own key leaves the scan where it was. *)
Lemma scan_own_key a_key a_features b_features rest min_diff best_match :
  scan a_key a_features ((a_key, b_features) :: rest) min_diff best_match
  = scan a_key a_features rest min_diff best_match.
Proof. simpl. rewrite bool_decide_eq_true_2; reflexivity. Qed.

Lemma scan_other_key a_key a_features b_key b_features rest min_diff best_match :
  a_key ≠ b_key →
  scan a_key a_features ((b_key, b_features) :: rest) min_diff best_match
  = if flt (dist a_features b_features) min_diff
    then scan a_key a_features rest (dist a_features b_features) (Some b_key)
    else scan a_key a_features rest min_diff best_match.
Proof. intros Hne. simpl. rewrite bool_decide_eq_false_2; [reflexivity|exact Hne]. Qed.

(** The scan skips the entries filed under the query's key. *)
Lemma scan_filter a_key a_features b_items min_diff best_match :
  scan a_key a_features b_items min_diff best_match
  = scan a_key a_features (filter (fun e => e.1 ≠ a_key) b_items) min_diff best_match.
Proof.
  revert min_diff best_match.
  induction b_items as [|[b_key b_features] rest IH]; intros min_diff best_match.
  - reflexivity.
  - destruct (decide (a_key = b_key)) as [->|Hne].
    + rewrite scan_own_key, filter_cons_False; [apply IH|]. simpl. tauto.
    + rewrite filter_cons_True by (simpl; congruence).
      rewrite !scan_other_key by exact Hne.
      destruct (flt _ _); apply IH.
Qed.

(** What a scan returns, from any starting point: either nothing beat the
    starting [min_diff], or the result is the first entry, among those
    under another key, whose distance no other such entry undercuts. *)
Lemma scan_spec a_key a_features b_items min_diff best_match d r :
  scan a_key a_features b_items min_diff best_match = (d, r) →
  (d = min_diff ∧ r = best_match
   ∧ ∀ b_key b_features, (b_key, b_features) ∈ b_items → b_key ≠ a_key →
       flt (dist a_features b_features) min_diff = false)
  ∨ (∃ before b_key b_features after,
       b_items = before ++ (b_key, b_features) :: after
       ∧ b_key ≠ a_key ∧ r = Some b_key ∧ d = dist a_features b_features
       ∧ flt d min_diff = true
       ∧ (∀ k f, (k, f) ∈ before → k ≠ a_key → fle (dist a_features f) d = false)
       ∧ (∀ k f, (k, f) ∈ b_items → k ≠ a_key → flt (dist a_features f) d = false)).
Proof.
  revert min_diff best_match.
  induction b_items as [|[b_key b_features] rest IH]; intros min_diff best_match Hscan.
  - simpl in Hscan. inversion Hscan; subst. left. repeat split.
    intros k f Hin. inversion Hin.
  - destruct (decide (a_key = b_key)) as [->|Hne].
    + rewrite scan_own_key in Hscan.
      destruct (IH _ _ Hscan) as [(-> & -> & Hall)|(before & k & f & after & -> & Hk & -> & -> & Hlt & Hbefore & Hall)].
      * left. repeat split. intros k f Hin Hk.
        apply elem_of_cons in Hin as [Heq|Hin]; [congruence|eauto].
      * right. exists ((b_key, b_features) :: before), k, f, after.
        repeat split; trivial.
        -- intros k' f' Hin Hk'.
           apply elem_of_cons in Hin as [Heq|Hin]; [congruence|eauto].
        -- intros k' f' Hin Hk'.
           apply elem_of_cons in Hin as [Heq|Hin]; [congruence|eauto].
    + rewrite scan_other_key in Hscan by exact Hne.
      destruct (flt (dist a_features b_features) min_diff) eqn:Hhead.
      * destruct (IH _ _ Hscan) as [(-> & -> & Hall)|(before & k & f & after & -> & Hk & -> & -> & Hlt & Hbefore & Hall)].
        -- right. exists [], b_key, b_features, rest.
           repeat split; trivial; try congruence.
           ++ intros k f Hin. inversion Hin.
           ++ intros k f Hin Hk.
              apply elem_of_cons in Hin as [Heq|Hin]; [|eauto].
              inversion Heq; subst. apply flt_irrefl.
        -- right. exists ((b_key, b_features) :: before), k, f, after.
           repeat split; trivial.
           ++ eapply flt_trans; eassumption.
           ++ intros k' f' Hin Hk'.
              apply elem_of_cons in Hin as [Heq|Hin]; [|eauto].
              inversion Heq; subst. apply flt_not_fle, Hlt.
           ++ intros k' f' Hin Hk'.
              apply elem_of_cons in Hin as [Heq|Hin]; [|eauto].
              inversion Heq; subst.
              apply not_true_is_false. intros Hc.
              apply flt_fle in Hc. rewrite (flt_not_fle _ _ Hlt) in Hc. discriminate.
      * destruct (IH _ _ Hscan) as [(-> & -> & Hall)|(before & k & f & after & -> & Hk & -> & -> & Hlt & Hbefore & Hall)].
        -- left. repeat split. intros k f Hin Hk.
           apply elem_of_cons in Hin as [Heq|Hin]; [|eauto].
           inversion Heq; subst. exact Hhead.
        -- right. exists ((b_key, b_features) :: before), k, f, after.
           repeat split; trivial.
           ++ intros k' f' Hin Hk'.
              apply elem_of_cons in Hin as [Heq|Hin]; [|eauto].
              inversion Heq; subst.
              apply not_true_is_false. intros Hc.
              rewrite (fle_flt_trans _ _ _ Hc Hlt) in Hhead. discriminate.
           ++ intros k' f' Hin Hk'.
              apply elem_of_cons in Hin as [Heq|Hin]; [|eauto].
              inversion Heq; subst.
              apply not_true_is_false. intros Hc.
              rewrite (flt_trans _ _ _ Hc Hlt) in Hhead. discriminate.
Qed.

End Scan.

(** The scan depends on the helper only through the entries filed under
    another key than the query's. *)
Lemma scan_ext {features : Type}
    (cfd cfd' : features -> features -> option float64 -> float64)
    a_key a_features b_items min_diff best_match :
  (∀ b_key b_features, (b_key, b_features) ∈ b_items → b_key ≠ a_key →
     cfd a_features b_features None = cfd' a_features b_features None) →
  scan_gallery cfd a_key a_features b_items min_diff best_match
  = scan_gallery cfd' a_key a_features b_items min_diff best_match.
Proof.
  revert min_diff best_match.
  induction b_items as [|[b_key b_features] rest IH]; intros min_diff best_match Hagree.
  - reflexivity.
  - assert (Hrest : ∀ k f, (k, f) ∈ rest → k ≠ a_key → cfd a_features f None = cfd' a_features f None).
    { intros k f Hin. apply Hagree. now apply elem_of_cons; right. }
    destruct (decide (a_key = b_key)) as [->|Hne].
    + rewrite !scan_own_key. now apply IH.
    + rewrite !scan_other_key by exact Hne.
      rewrite <- (Hagree b_key b_features) by (try apply elem_of_cons; auto).
      destruct (flt _ _); now apply IH.
Qed.

Lemma tally_loop_ext {features : Type}
    (cfd cfd' : features -> features -> option float64 -> float64)
    (a_items b_items : list (key * features)) M :
  (∀ a_item, a_item ∈ a_items →
     nearest cfd a_item.1 a_item.2 b_items = nearest cfd' a_item.1 a_item.2 b_items) →
  tally_loop cfd a_items b_items M = tally_loop cfd' a_items b_items M.
Proof.
  revert M. induction a_items as [|[a_key a_features] rest IH]; intros M Hagree.
  - reflexivity.
  - cbn [tally_loop]. unfold tally_query.
    pose proof (Hagree (a_key, a_features)) as Hhead. cbn [fst snd] in Hhead.
    rewrite Hhead by (apply elem_of_cons; auto).
    destruct (nearest cfd' a_key a_features b_items) as [min_diff [b|]]; cbn [mbind result_bind].
    2: { apply IH. intros a_item Hin. apply Hagree. now apply elem_of_cons; right. }
    destruct (Numpy.iadd_item M (item0 a_key - 1) (item0 b - 1) one) as [M'|e]; [|reflexivity].
    apply IH. intros a_item Hin. apply Hagree. now apply elem_of_cons; right.
Qed.

(** ** Self-exclusion, nearest neighbour, empty gallery *)

Lemma nearest_not_own_key {features : Type}
    (cfd : features -> features -> option float64 -> float64)
    a_key a_features (b_items : list (key * features)) d :
  nearest cfd a_key a_features b_items ≠ (d, Some a_key).
Proof.
  intros Hscan. apply scan_spec in Hscan.
  destruct Hscan as [(_ & Hnone & _)|(_ & k & _ & _ & _ & Hk & Hsome & _)].
  - discriminate.
  - congruence.
Qed.

(** C2: a gallery entry filed under the query's own key is never chosen
    as the prediction, and never compared: the scan of the gallery is the
    scan of the gallery without those entries, and the returned matrix
    does not depend on what the distance helper would answer for them.
    In particular no query is matched to itself when the query set is
    also the gallery. *)
Theorem self_match_excluded {features : Type}
    (cfd : features -> features -> option float64 -> float64)
    (a_features_dict b_features_dict : list (key * features))
    (n_actions : Z) (scale : float64) :
  (∀ a_item, predicted cfd b_features_dict a_item ≠ Some a_item.1)
  ∧ (∀ a_item, a_item ∈ a_features_dict →
       predicted cfd a_features_dict a_item ≠ Some a_item.1)
  ∧ (∀ a_key a_features,
       nearest cfd a_key a_features b_features_dict
       = nearest cfd a_key a_features (filter (fun e => e.1 ≠ a_key) b_features_dict))
  ∧ (∀ cfd' : features -> features -> option float64 -> float64,
       (∀ a_key a_features b_key b_features,
          (a_key, a_features) ∈ a_features_dict →
          (b_key, b_features) ∈ b_features_dict →
          b_key ≠ a_key →
          cfd a_features b_features None = cfd' a_features b_features None) →
       match_features cfd a_features_dict b_features_dict n_actions scale
       = match_features cfd' a_features_dict b_features_dict n_actions scale).
Proof.
  assert (Hnot : ∀ b_items a_item, predicted cfd b_items a_item ≠ Some a_item.1).
  { intros b_items [a_key a_features]. unfold predicted. cbn [fst snd].
    destruct (nearest cfd a_key a_features b_items) as [d r] eqn:Hn. cbn [snd].
    intros ->. exact (nearest_not_own_key _ _ _ _ _ Hn). }
  split; [apply Hnot|]. split; [intros a_item _; apply Hnot|]. split.
  - intros a_key a_features. apply scan_filter.
  - intros cfd' Hagree. unfold match_features, tally.
    destruct (Numpy.zeros n_actions) as [M0|e]; [|reflexivity].
    cbn [mbind result_bind].
    rewrite (tally_loop_ext cfd cfd'); [reflexivity|].
    intros [a_key a_features] Hin. apply scan_ext.
    intros b_key b_features Hb Hne.
    exact (Hagree a_key a_features b_key b_features Hin Hb Hne).
Qed.

(** C4: the prediction for a query is an entry of the gallery filed under
    another key, at a distance below [inf] that no such entry undercuts,
    and it is the first of them in iteration order: every earlier one is
    strictly farther (or at no comparable distance).  A prediction exists
    exactly when some entry under another key lies at a distance below
    [inf]. *)
Theorem nearest_is_first_minimum {features : Type}
    (cfd : features -> features -> option float64 -> float64)
    (a_key : key) (a_features : features)
    (b_features_dict : list (key * features)) :
  (∀ d b, nearest cfd a_key a_features b_features_dict = (d, Some b) →
     ∃ before b_features after,
       b_features_dict = before ++ (b, b_features) :: after
       ∧ b ≠ a_key
       ∧ d = cfd a_features b_features None
       ∧ flt d PosInf = true
       ∧ (∀ k f, (k, f) ∈ b_features_dict → k ≠ a_key →
            flt (cfd a_features f None) d = false)
       ∧ (∀ k f, (k, f) ∈ before → k ≠ a_key →
            fle (cfd a_features f None) d = false))
  ∧ ((∃ k f, (k, f) ∈ b_features_dict ∧ k ≠ a_key
             ∧ flt (cfd a_features f None) PosInf = true)
     ↔ ∃ d b, nearest cfd a_key a_features b_features_dict = (d, Some b)).
Proof.
  split; [|split].
  - intros d b Hn. apply scan_spec in Hn.
    destruct Hn as [(_ & Hnone & _)|(before & k & f & after & Hsplit & Hk & Hsome & Hd & Hlt & Hbefore & Hall)].
    + discriminate.
    + inversion Hsome; subst k. exists before, f, after. auto 10.
  - intros (k & f & Hin & Hk & Hlt).
    destruct (nearest cfd a_key a_features b_features_dict) as [d r] eqn:Hn.
    pose proof Hn as Hspec. apply scan_spec in Hspec.
    destruct Hspec as [(_ & _ & Hall)|(_ & b & _ & _ & _ & _ & -> & _)].
    + rewrite (Hall k f Hin Hk) in Hlt. discriminate.
    + eauto.
  - intros (d & b & Hn). apply scan_spec in Hn.
    destruct Hn as [(_ & Hnone & _)|(before & k & f & after & Hsplit & Hk & Hsome & Hd & Hlt & _)].
    + discriminate.
    + exists k, f. subst. split; [|auto].
      apply elem_of_app. right. apply elem_of_cons. auto.
Qed.

Lemma self_match_excluded_witness :
  match_features Ps8.compute_feature_difference Sample.clips Sample.clips 2 one
  = match_features Sample.nan_at_zero Sample.clips Sample.clips 2 one.
Proof.
  apply (self_match_excluded Ps8.compute_feature_difference
           Sample.clips Sample.clips 2 one).
  intros a_key a_features b_key b_features Ha Hb Hne.
  unfold Sample.clips in Ha, Hb. set_unfold.
  destruct_or!; simplify_eq; try done; vm_compute; reflexivity.
Defined.

Lemma nearest_is_first_minimum_witness :
  nearest Ps8.compute_feature_difference (1, 1, 1) (Sample.descriptor 0 0) Sample.tied
  = (Fin 5, Some (2, 1, 1))
  ∧ ∃ before b_features after,
      Sample.tied = before ++ ((2, 1, 1), b_features) :: after
      ∧ (2, 1, 1) ≠ (1, 1, 1)
      ∧ Fin 5 = Ps8.compute_feature_difference (Sample.descriptor 0 0) b_features None
      ∧ flt (Fin 5) PosInf = true
      ∧ (∀ k f, (k, f) ∈ Sample.tied → k ≠ (1, 1, 1) →
           flt (Ps8.compute_feature_difference (Sample.descriptor 0 0) f None) (Fin 5) = false)
      ∧ (∀ k f, (k, f) ∈ before → k ≠ (1, 1, 1) →
           fle (Ps8.compute_feature_difference (Sample.descriptor 0 0) f None) (Fin 5) = false).
Proof.
  split; [vm_compute; reflexivity|].
  apply (proj1 (nearest_is_first_minimum Ps8.compute_feature_difference
                  (1, 1, 1) (Sample.descriptor 0 0) Sample.tied)).
  vm_compute. reflexivity.
Defined.

Lemma scan_no_candidate {features : Type}
    (cfd : features -> features -> option float64 -> float64)
    a_key a_features (b_items : list (key * features)) min_diff best_match :
  (∀ k f, (k, f) ∈ b_items → k = a_key) →
  scan_gallery cfd a_key a_features b_items min_diff best_match = (min_diff, best_match).
Proof.
  induction b_items as [|[b_key b_features] rest IH]; intros Hown.
  - reflexivity.
  - rewrite (Hown b_key b_features) by (apply elem_of_cons; auto).
    rewrite scan_own_key. apply IH.
    intros k f Hin. apply (Hown k f). apply elem_of_cons. auto.
Qed.

Lemma tally_loop_app {features : Type}
    (cfd : features -> features -> option float64 -> float64)
    (before after b_items : list (key * features)) M :
  tally_loop cfd (before ++ after) b_items M
  = M' ← tally_loop cfd before b_items M; tally_loop cfd after b_items M'.
Proof.
  revert M. induction before as [|a_item rest IH]; intros M.
  - reflexivity.
  - cbn [app tally_loop].
    destruct (tally_query cfd b_items M a_item) as [M1|e]; cbn [mbind result_bind].
    + apply IH.
    + reflexivity.
Qed.

(** C5: a query for which the gallery holds no entry under another key
    gets no best match; the body of the loop leaves the matrix as it was,
    and the function returns what it returns without that query. *)
Theorem query_without_candidates_is_skipped {features : Type}
    (cfd : features -> features -> option float64 -> float64)
    (a_key : key) (a_features : features)
    (b_features_dict : list (key * features)) :
  (∀ k f, (k, f) ∈ b_features_dict → k = a_key) →
  nearest cfd a_key a_features b_features_dict = (PosInf, None)
  ∧ (∀ M, tally_query cfd b_features_dict M (a_key, a_features) = Ok M)
  ∧ (∀ before after n_actions,
       tally cfd (before ++ (a_key, a_features) :: after) b_features_dict n_actions
       = tally cfd (before ++ after) b_features_dict n_actions)
  ∧ (∀ before after n_actions scale,
       match_features cfd (before ++ (a_key, a_features) :: after)
         b_features_dict n_actions scale
       = match_features cfd (before ++ after) b_features_dict n_actions scale).
Proof.
  intros Hown.
  assert (Hn : nearest cfd a_key a_features b_features_dict = (PosInf, None))
    by now apply scan_no_candidate.
  assert (Hq : ∀ M, tally_query cfd b_features_dict M (a_key, a_features) = Ok M).
  { intros M. unfold tally_query. now rewrite Hn. }
  assert (Ht : ∀ before after n_actions,
       tally cfd (before ++ (a_key, a_features) :: after) b_features_dict n_actions
       = tally cfd (before ++ after) b_features_dict n_actions).
  { intros before after n_actions. unfold tally.
    destruct (Numpy.zeros n_actions) as [M0|e]; [|reflexivity].
    cbn [mbind result_bind]. rewrite !tally_loop_app.
    destruct (tally_loop cfd before b_features_dict M0) as [M1|e]; [|reflexivity].
    cbn [mbind result_bind tally_loop]. now rewrite Hq. }
  repeat split; trivial.
  intros before after n_actions scale. unfold match_features. now rewrite Ht.
Qed.

Lemma query_without_candidates_is_skipped_witness :
  match_features Ps8.compute_feature_difference
    [((1, 1, 1), Sample.descriptor 0 0); ((2, 1, 1), Sample.descriptor 10 0)]
    [((2, 1, 1), Sample.descriptor 10 0)] 2 one
  = Ok [[Fin 0; Fin 1]; [NaN; NaN]].
Proof.
  pose proof (query_without_candidates_is_skipped Ps8.compute_feature_difference
                (2, 1, 1) (Sample.descriptor 10 0)
                [((2, 1, 1), Sample.descriptor 10 0)]) as H.
  destruct H as (_ & _ & _ & Hskip).
  - intros k f Hin. set_unfold. destruct Hin as [Hin|[]]. now simplify_eq.
  - etransitivity; [exact (Hskip [((1, 1, 1), Sample.descriptor 0 0)] [] 2 one)|].
    vm_compute. reflexivity.
Defined.

(** ** Indexing and in-place addition *)

Section Arrays.

Lemma index_in_bounds (len : nat) (i : Z) :
  in_bounds (Z.of_nat len) i →
  Numpy.index len i = Ok (wrap (Z.of_nat len) i).
Proof.
  unfold in_bounds, Numpy.index, wrap. intros Hi.
  destruct (Z.leb_spec 0 i), (Z.ltb_spec i (Z.of_nat len)),
    (Z.ltb_spec i 0), (Z.leb_spec (- Z.of_nat len) i); simpl; try lia; reflexivity.
Qed.

Lemma index_out_of_bounds (len : nat) (i : Z) :
  ¬ in_bounds (Z.of_nat len) i → Numpy.index len i = Raise IndexError.
Proof.
  unfold in_bounds, Numpy.index. intros Hi.
  destruct (Z.leb_spec 0 i), (Z.ltb_spec i (Z.of_nat len)),
    (Z.ltb_spec i 0), (Z.leb_spec (- Z.of_nat len) i); simpl; try lia; reflexivity.
Qed.

Lemma wrap_lt (n : nat) (i : Z) :
  in_bounds (Z.of_nat n) i → (wrap (Z.of_nat n) i < n)%nat.
Proof.
  unfold in_bounds, wrap. intros Hi.
  destruct (Z.ltb_spec i 0); lia.
Qed.

Lemma square_row (n : nat) (M : Numpy.ndarray2) (r : nat) :
  square n M → (r < n)%nat → ∃ row, M !! r = Some row ∧ length row = n.
Proof.
  intros [Hlen Hrows] Hr.
  destruct (lookup_lt_is_Some_2 M r) as [row Hrow]; [lia|].
  exists row. split; [exact Hrow|]. exact (Forall_lookup_1 _ _ _ _ Hrows Hrow).
Qed.

Lemma iadd_item_in_bounds (n : nat) (M : Numpy.ndarray2) (i j : Z) (v : float64) :
  square n M → in_bounds (Z.of_nat n) i → in_bounds (Z.of_nat n) j →
  Numpy.iadd_item M i j v
  = Ok (alter (alter (fun x => fadd x v) (wrap (Z.of_nat n) j)) (wrap (Z.of_nat n) i) M).
Proof.
  intros Hsq Hi Hj. unfold Numpy.iadd_item.
  destruct Hsq as [Hlen Hrows]. rewrite Hlen.
  rewrite (index_in_bounds n i Hi). cbn [mbind result_bind].
  destruct (square_row n M (wrap (Z.of_nat n) i)) as (row & Hrow & Hrowlen);
    [split; assumption|now apply wrap_lt|].
  rewrite Hrow. simpl. rewrite Hrowlen.
  rewrite (index_in_bounds n j Hj). reflexivity.
Qed.

Lemma iadd_item_out_of_bounds (n : nat) (M : Numpy.ndarray2) (i j : Z) (v : float64) :
  square n M → ¬ (in_bounds (Z.of_nat n) i ∧ in_bounds (Z.of_nat n) j) →
  Numpy.iadd_item M i j v = Raise IndexError.
Proof.
  intros Hsq Hbad. unfold Numpy.iadd_item.
  pose proof Hsq as [Hlen Hrows]. rewrite Hlen.
  destruct (decide (in_bounds (Z.of_nat n) i)) as [Hi|Hi].
  - rewrite (index_in_bounds n i Hi). cbn [mbind result_bind].
    destruct (square_row n M (wrap (Z.of_nat n) i)) as (row & Hrow & Hrowlen);
      [assumption|now apply wrap_lt|].
    rewrite Hrow. simpl. rewrite Hrowlen.
    rewrite index_out_of_bounds; [reflexivity|tauto].
  - now rewrite (index_out_of_bounds n i Hi).
Qed.

Lemma square_alter (n : nat) (M : Numpy.ndarray2) (f : float64 -> float64) (r c : nat) :
  square n M → square n (alter (alter f c) r M).
Proof.
  intros [Hlen Hrows]. split.
  - now rewrite length_alter.
  - apply Forall_alter; [exact Hrows|].
    intros row _ Hrow. now rewrite length_alter.
Qed.

Lemma cell_alter (M : Numpy.ndarray2) (f : float64 -> float64) (r c i j : nat) :
  cell (alter (alter f c) r M) i j
  = if decide (r = i ∧ c = j) then f <$> cell M i j else cell M i j.
Proof.
  unfold cell. destruct (decide (r = i)) as [->|Hr].
  - rewrite list_lookup_alter_eq. destruct (M !! i) as [row|]; simpl.
    + destruct (decide (c = j)) as [->|Hc].
      * rewrite list_lookup_alter_eq. now rewrite decide_True by auto.
      * rewrite list_lookup_alter_ne by exact Hc. now rewrite decide_False by tauto.
    + now destruct (decide _).
  - rewrite list_lookup_alter_ne by exact Hr. now rewrite decide_False by tauto.
Qed.

Lemma square_zeros (n : Z) :
  0 ≤ n → ∃ M, Numpy.zeros n = Ok M ∧ square (Z.to_nat n) M
               ∧ ∀ i j, (i < Z.to_nat n)%nat → (j < Z.to_nat n)%nat →
                   cell M i j = Some zero.
Proof.
  intros Hn. unfold Numpy.zeros. destruct (Z.ltb_spec n 0); [lia|].
  eexists. split; [reflexivity|]. split.
  - split; [apply length_replicate|].
    apply Forall_replicate, length_replicate.
  - intros i j Hi Hj. unfold cell.
    rewrite lookup_replicate_2 by exact Hi. simpl.
    now rewrite lookup_replicate_2 by exact Hj.
Qed.

Lemma fadd_count (a b : Z) :
  fadd (Fin (inject_Z a)) (Fin (inject_Z b)) = Fin (inject_Z (a + b)).
Proof.
  simpl. f_equal. rewrite <- inject_Z_plus.
  apply Qred_identity. simpl. apply Z.gcd_1_r.
Qed.

End Arrays.

(** ** The loop that fills the matrix *)

Section Tally.

Context {features : Type}.
Variable cfd : features -> features -> option float64 -> float64.
Implicit Types a_items b_items : list (key * features).

Lemma tally_query_ballot b_items M a_item :
  tally_query cfd b_items M a_item
  = match ballot cfd b_items a_item with
    | Some ij => Numpy.iadd_item M ij.1 ij.2 one
    | None => Ok M
    end.
Proof.
  destruct a_item as [a_key a_features].
  unfold tally_query, ballot, predicted. cbn [fst snd].
  destruct (nearest cfd a_key a_features b_items) as [d [b|]]; reflexivity.
Qed.

Lemma tallied_cons b_items n i j a_item a_items :
  tallied cfd (a_item :: a_items) b_items n i j
  = ((if decide (lands cfd b_items n i j a_item) then 1 else 0)
     + tallied cfd a_items b_items n i j)%nat.
Proof.
  unfold tallied. rewrite filter_cons. now destruct (decide _).
Qed.

Lemma lands_ballot b_items n i j a_item ij :
  ballot cfd b_items a_item = Some ij →
  lands cfd b_items n i j a_item ↔ wrap n ij.1 = i ∧ wrap n ij.2 = j.
Proof.
  intros Hb. unfold lands. rewrite Hb. split.
  - intros (ij' & Heq & Hw). now inversion Heq; subst.
  - intros Hw. now exists ij.
Qed.

Lemma lands_no_ballot b_items n i j a_item :
  ballot cfd b_items a_item = None → ¬ lands cfd b_items n i j a_item.
Proof. intros Hb (ij & Heq & _). congruence. Qed.

Lemma tally_loop_in_bounds (n : nat) a_items b_items M0 c0 :
  square n M0 → holds_counts n M0 c0 →
  ballots_in_bounds cfd a_items b_items (Z.of_nat n) →
  ∃ M, tally_loop cfd a_items b_items M0 = Ok M ∧ square n M
       ∧ holds_counts n M
           (fun i j => (c0 i j + tallied cfd a_items b_items (Z.of_nat n) i j)%nat).
Proof.
  revert M0 c0. induction a_items as [|a_item rest IH]; intros M0 c0 Hsq Hc Hb.
  - exists M0. repeat split; try apply Hsq.
    intros i j Hi Hj. unfold tallied. simpl. rewrite Nat.add_0_r. now apply Hc.
  - cbn [tally_loop]. rewrite tally_query_ballot.
    assert (Hrest : ballots_in_bounds cfd rest b_items (Z.of_nat n)).
    { intros q ij Hin. apply Hb. now apply elem_of_cons; right. }
    destruct (ballot cfd b_items a_item) as [ij|] eqn:Hballot.
    + destruct (Hb a_item ij) as [Hi Hj]; [apply elem_of_cons; auto|exact Hballot|].
      rewrite (iadd_item_in_bounds n) by assumption. cbn [mbind result_bind].
      destruct (IH (alter (alter (fun x => fadd x one) (wrap (Z.of_nat n) ij.2))
                      (wrap (Z.of_nat n) ij.1) M0)
                  (fun i j => (c0 i j + if decide (wrap (Z.of_nat n) ij.1 = i
                                                   ∧ wrap (Z.of_nat n) ij.2 = j)
                                        then 1 else 0)%nat))
        as (M & HM & HsqM & HcM).
      * now apply square_alter.
      * intros i j Hi' Hj'. rewrite cell_alter, (Hc i j Hi' Hj').
        destruct (decide _); cbn [fmap option_fmap option_map].
        -- change one with (Fin (inject_Z 1)). rewrite fadd_count.
           do 3 f_equal. lia.
        -- do 3 f_equal. lia.
      * exact Hrest.
      * exists M. repeat split; try apply HsqM; [exact HM|].
        intros i j Hi' Hj'. rewrite (HcM i j Hi' Hj'), tallied_cons.
        do 3 f_equal.
        destruct (decide (lands _ _ _ _ _ _)) as [Hl|Hl], (decide (_ ∧ _)) as [Hw|Hw];
          try lia; rewrite (lands_ballot _ _ _ _ _ _ Hballot) in Hl; tauto.
    + cbn [mbind result_bind].
      destruct (IH M0 c0 Hsq Hc Hrest) as (M & HM & HsqM & HcM).
      exists M. repeat split; try apply HsqM; [exact HM|].
      intros i j Hi' Hj'. rewrite (HcM i j Hi' Hj'), tallied_cons.
      rewrite decide_False by now apply lands_no_ballot. reflexivity.
Qed.

Lemma tally_loop_Ok_inv (n : nat) a_items b_items M0 M :
  square n M0 → tally_loop cfd a_items b_items M0 = Ok M →
  ballots_in_bounds cfd a_items b_items (Z.of_nat n).
Proof.
  revert M0. induction a_items as [|a_item rest IH]; intros M0 Hsq Hok.
  - intros q ij Hin. inversion Hin.
  - cbn [tally_loop] in Hok. rewrite tally_query_ballot in Hok.
    destruct (ballot cfd b_items a_item) as [ij|] eqn:Hballot.
    + destruct (decide (in_bounds (Z.of_nat n) ij.1 ∧ in_bounds (Z.of_nat n) ij.2))
        as [[Hi Hj]|Hbad].
      * rewrite (iadd_item_in_bounds n) in Hok by assumption.
        cbn [mbind result_bind] in Hok.
        pose proof (IH _ (square_alter n M0 _ _ _ Hsq) Hok) as Hrest.
        intros q ij' Hin Hq. apply elem_of_cons in Hin as [->|Hin].
        -- rewrite Hballot in Hq. now inversion Hq; subst.
        -- now apply (Hrest q).
      * rewrite (iadd_item_out_of_bounds n) in Hok by assumption. discriminate.
    + cbn [mbind result_bind] in Hok. pose proof (IH _ Hsq Hok) as Hrest.
      intros q ij' Hin Hq. apply elem_of_cons in Hin as [->|Hin].
      * congruence.
      * now apply (Hrest q).
Qed.

Lemma tally_loop_raises (n : nat) a_items b_items M0 e :
  square n M0 → tally_loop cfd a_items b_items M0 = Raise e → e = IndexError.
Proof.
  revert M0. induction a_items as [|a_item rest IH]; intros M0 Hsq Hraise.
  - discriminate.
  - cbn [tally_loop] in Hraise. rewrite tally_query_ballot in Hraise.
    destruct (ballot cfd b_items a_item) as [ij|].
    + destruct (decide (in_bounds (Z.of_nat n) ij.1 ∧ in_bounds (Z.of_nat n) ij.2))
        as [[Hi Hj]|Hbad].
      * rewrite (iadd_item_in_bounds n) in Hraise by assumption.
        exact (IH _ (square_alter n M0 _ _ _ Hsq) Hraise).
      * rewrite (iadd_item_out_of_bounds n) in Hraise by assumption.
        cbn [mbind result_bind] in Hraise. congruence.
    + exact (IH _ Hsq Hraise).
Qed.

(** With every count addressed to a cell, the loop ends with a square
    matrix whose cell [(i, j)] is the number of queries that landed
    there. *)
Lemma tally_in_bounds a_items b_items (n_actions : Z) :
  0 ≤ n_actions → ballots_in_bounds cfd a_items b_items n_actions →
  ∃ M, tally cfd a_items b_items n_actions = Ok M
       ∧ square (Z.to_nat n_actions) M
       ∧ holds_counts (Z.to_nat n_actions) M (tallied cfd a_items b_items n_actions).
Proof.
  intros Hn Hb. unfold tally.
  destruct (square_zeros n_actions Hn) as (M0 & -> & Hsq & Hzero).
  cbn [mbind result_bind].
  rewrite <- (Z2Nat.id n_actions Hn) in Hb.
  destruct (tally_loop_in_bounds _ a_items b_items M0 (fun _ _ => 0%nat) Hsq) as (M & HM & HsqM & HcM).
  - intros i j Hi Hj. now apply Hzero.
  - exact Hb.
  - exists M. repeat split; try apply HsqM; [exact HM|].
    intros i j Hi Hj. rewrite (HcM i j Hi Hj). now rewrite Z2Nat.id by exact Hn.
Qed.

(** A returned matrix means that the shape was legal and that no count
    was addressed outside the matrix. *)
Lemma tally_Ok_inv a_items b_items (n_actions : Z) M :
  tally cfd a_items b_items n_actions = Ok M →
  0 ≤ n_actions ∧ ballots_in_bounds cfd a_items b_items n_actions.
Proof.
  intros Hok. unfold tally in Hok.
  destruct (Z.lt_ge_cases n_actions 0) as [Hneg|Hn].
  - unfold Numpy.zeros in Hok. apply Z.ltb_lt in Hneg. rewrite Hneg in Hok. discriminate.
  - split; [exact Hn|].
    destruct (square_zeros n_actions Hn) as (M0 & HM0 & Hsq & _).
    rewrite HM0 in Hok. cbn [mbind result_bind] in Hok.
    rewrite <- (Z2Nat.id n_actions Hn). eapply tally_loop_Ok_inv; eassumption.
Qed.

Lemma tally_raises a_items b_items (n_actions : Z) e :
  tally cfd a_items b_items n_actions = Raise e →
  (n_actions < 0 ∧ e = ValueError)
  ∨ (0 ≤ n_actions ∧ e = IndexError
     ∧ ¬ ballots_in_bounds cfd a_items b_items n_actions).
Proof.
  intros Hraise.
  destruct (Z.lt_ge_cases n_actions 0) as [Hneg|Hn].
  - left. split; [exact Hneg|]. unfold tally, Numpy.zeros in Hraise.
    apply Z.ltb_lt in Hneg. rewrite Hneg in Hraise.
    cbn [mbind result_bind] in Hraise. congruence.
  - right. split; [exact Hn|]. split.
    + unfold tally in Hraise.
      destruct (square_zeros n_actions Hn) as (M0 & HM0 & Hsq & _).
      rewrite HM0 in Hraise. cbn [mbind result_bind] in Hraise.
      eapply tally_loop_raises; eassumption.
    + intros Hb. destruct (tally_in_bounds _ _ _ Hn Hb) as (M & HM & _). congruence.
Qed.

End Tally.

(** ** Normalizing the rows *)

Section Normalize.

Lemma normalize_rows_fmap (M : Numpy.ndarray2) :
  normalize_rows M = divided_row <$> M.
Proof.
  unfold normalize_rows, Numpy.idiv_rows, Numpy.sum_axis1.
  induction M as [|row M IH]; [reflexivity|].
  cbn [fmap list_fmap zip_with]. f_equal. exact IH.
Qed.

Lemma foldl_count_row (a : Z) (cs : list nat) :
  foldl fadd (Fin (inject_Z a)) (count_row cs)
  = Fin (inject_Z (a + Z.of_nat (sum_list cs))).
Proof.
  revert a. induction cs as [|c cs IH]; intros a.
  - simpl. do 2 f_equal. lia.
  - cbn [count_row fmap list_fmap foldl]. rewrite fadd_count.
    unfold count_row in IH. rewrite IH. do 2 f_equal. simpl. lia.
Qed.

Lemma sum_count_row (cs : list nat) :
  Numpy.sum (count_row cs) = Fin (inject_Z (Z.of_nat (sum_list cs))).
Proof. unfold Numpy.sum. change zero with (Fin (inject_Z 0)). apply foldl_count_row. Qed.

Lemma sum_list_zero (cs : list nat) :
  sum_list cs = 0%nat → Forall (eq 0%nat) cs.
Proof.
  induction cs as [|c cs IH]; simpl; intros Hs; constructor.
  - lia.
  - apply IH. lia.
Qed.

Lemma elem_le_sum_list (cs : list nat) (c : nat) :
  c ∈ cs → (c ≤ sum_list cs)%nat.
Proof.
  induction cs as [|c' cs IH]; intros Hin.
  - inversion Hin.
  - apply elem_of_cons in Hin as [->|Hin]; simpl; [lia|].
    specialize (IH Hin). lia.
Qed.

Lemma sum_list_fmap_zero {A : Type} (f : A -> nat) (l : list A) :
  (∀ x, f x = 0%nat) → sum_list (f <$> l) = 0%nat.
Proof.
  intros Hf. induction l as [|x l IH]; [reflexivity|].
  cbn [fmap list_fmap sum_list sum_list_with]. unfold id. rewrite Hf. exact IH.
Qed.

(** A row without any count: every cell is [0/0]. *)
Lemma divided_row_zero (cs : list nat) :
  sum_list cs = 0%nat → Forall (eq NaN) (divided_row (count_row cs)).
Proof.
  intros Hs. unfold divided_row. rewrite sum_count_row, Hs.
  apply sum_list_zero in Hs. unfold count_row.
  apply Forall_fmap, Forall_fmap. eapply Forall_impl; [exact Hs|].
  intros c <-. reflexivity.
Qed.

Lemma fdiv_counts (c s : nat) :
  (0 < s)%nat →
  fdiv (Fin (inject_Z (Z.of_nat c))) (Fin (inject_Z (Z.of_nat s)))
  = Fin (Qred (inject_Z (Z.of_nat c) / inject_Z (Z.of_nat s))).
Proof.
  intros Hs. simpl.
  replace (Qzerob (inject_Z (Z.of_nat s))) with false; [reflexivity|].
  symmetry. apply not_true_is_false. rewrite Qzerob_eq.
  unfold Qeq. simpl. lia.
Qed.

Lemma share_of_counts (c s : nat) :
  (0 < s)%nat → (c ≤ s)%nat →
  is_share (Fin (Qred (inject_Z (Z.of_nat c) / inject_Z (Z.of_nat s)))).
Proof.
  intros Hs Hc. eexists. split; [reflexivity|].
  assert (Hpos : (0 < inject_Z (Z.of_nat s))%Q) by (rewrite <- (Zlt_Qlt 0); lia).
  rewrite Qred_correct. split.
  - apply Qle_shift_div_l; [exact Hpos|]. rewrite Qmult_0_l.
    rewrite <- (Zle_Qle 0). lia.
  - apply Qle_shift_div_r; [exact Hpos|]. rewrite Qmult_1_l.
    rewrite <- Zle_Qle. lia.
Qed.

(** Adding up finite values: the exact sum, in lowest terms. *)
Lemma foldl_fin (acc : Q) (qs : list Q) :
  ∃ q, foldl fadd (Fin acc) (Fin <$> qs) = Fin q
       ∧ (q == acc + foldr Qplus 0%Q qs)%Q
       ∧ (qs ≠ [] → q = Qred q).
Proof.
  revert acc. induction qs as [|x qs IH]; intros acc.
  - exists acc. split; [reflexivity|]. split; [|congruence].
    cbn [foldr]. symmetry. apply Qplus_0_r.
  - cbn [fmap list_fmap foldl fadd].
    destruct (IH (Qred (acc + x))) as (q & Hq & Heq & Hred).
    exists q. split; [exact Hq|]. split.
    + rewrite Heq, Qred_correct. simpl. ring.
    + intros _. destruct qs as [|y qs].
      * simpl in Hq. inversion Hq; subst. symmetry. apply Qred_involutive.
      * now apply Hred.
Qed.

Lemma shares_add_up (s : nat) (cs : list nat) :
  (0 < s)%nat →
  (foldr Qplus 0
     ((fun c => Qred (inject_Z (Z.of_nat c) / inject_Z (Z.of_nat s))) <$> cs)
   == inject_Z (Z.of_nat (sum_list cs)) / inject_Z (Z.of_nat s))%Q.
Proof.
  intros Hs. induction cs as [|c cs IH].
  - simpl. unfold Qdiv. ring.
  - cbn [fmap list_fmap foldr sum_list sum_list_with]. rewrite IH, Qred_correct.
    rewrite Nat2Z.inj_add, inject_Z_plus. unfold Qdiv, id. ring.
Qed.

(** A row with at least one count: shares that add up to one. *)
Lemma divided_row_positive (cs : list nat) :
  (0 < sum_list cs)%nat →
  Numpy.sum (divided_row (count_row cs)) = one
  ∧ Forall is_share (divided_row (count_row cs)).
Proof.
  intros Hs. unfold divided_row. rewrite sum_count_row.
  assert (Hrow : (fun c => fdiv c (Fin (inject_Z (Z.of_nat (sum_list cs))))) <$> count_row cs
                 = Fin <$> ((fun c => Qred (inject_Z (Z.of_nat c)
                                              / inject_Z (Z.of_nat (sum_list cs)))) <$> cs)).
  { unfold count_row. rewrite <- !list_fmap_compose. apply list_fmap_ext.
    intros _ c _. simpl. now apply fdiv_counts. }
  rewrite Hrow. split.
  - unfold Numpy.sum, zero.
    destruct (foldl_fin 0 ((fun c => Qred (inject_Z (Z.of_nat c)
                                             / inject_Z (Z.of_nat (sum_list cs)))) <$> cs))
      as (q & -> & Heq & Hred).
    unfold one. f_equal. rewrite Hred.
    + change 1%Q with (Qred 1). apply Qred_complete.
      rewrite Heq, (shares_add_up _ _ Hs), Qplus_0_l.
      apply Qmult_inv_r. unfold Qeq. simpl. lia.
    + destruct cs; [simpl in Hs; lia|discriminate].
  - apply Forall_fmap, Forall_fmap. apply Forall_forall. intros c Hc. simpl.
    apply share_of_counts; [exact Hs|]. now apply elem_le_sum_list.
Qed.

End Normalize.

(** ** The returned matrix *)

Section Returned.

Context {features : Type}.
Variable cfd : features -> features -> option float64 -> float64.
Implicit Types a_items b_items : list (key * features).

Lemma row_of_counts (n : nat) (M : Numpy.ndarray2) (c : nat -> nat -> nat) (i : nat) :
  square n M → holds_counts n M c → (i < n)%nat →
  M !! i = Some (count_row (c i <$> seq 0 n)).
Proof.
  intros Hsq Hc Hi.
  destruct (square_row n M i Hsq Hi) as (row & Hrow & Hlen).
  rewrite Hrow. f_equal. apply list_eq. intros j.
  unfold count_row. rewrite !list_lookup_fmap.
  destruct (decide (j < n)%nat) as [Hj|Hj].
  - rewrite lookup_seq_lt by exact Hj. simpl.
    specialize (Hc i j Hi Hj). unfold cell in Hc. now rewrite Hrow in Hc.
  - rewrite lookup_seq_ge by lia. simpl. apply lookup_ge_None. lia.
Qed.

Lemma tallied_row_empty a_items b_items n i j :
  (∀ q, q ∈ a_items → ¬ lands_in_row cfd b_items n i q) →
  tallied cfd a_items b_items n i j = 0%nat.
Proof.
  intros Hnone. unfold tallied.
  induction a_items as [|q rest IH]; [reflexivity|].
  rewrite filter_cons_False.
  - apply IH. intros q' Hin. apply Hnone. now apply elem_of_cons; right.
  - intros (ij & Hb & Hi & _). apply (Hnone q); [apply elem_of_cons; auto|].
    now exists ij.
Qed.

Lemma tallied_positive a_items b_items n i j q :
  q ∈ a_items → lands cfd b_items n i j q →
  (0 < tallied cfd a_items b_items n i j)%nat.
Proof.
  intros Hin Hl. unfold tallied.
  assert (Hq : q ∈ filter (lands cfd b_items n i j) a_items)
    by (apply list_elem_of_filter; auto).
  destruct (filter _ _); [inversion Hq|simpl; lia].
Qed.

Lemma tallied_row_positive a_items b_items (n : Z) i q :
  0 ≤ n → ballots_in_bounds cfd a_items b_items n →
  q ∈ a_items → lands_in_row cfd b_items n i q →
  (0 < sum_list (tallied cfd a_items b_items n i <$> seq 0 (Z.to_nat n)))%nat.
Proof.
  intros Hn Hb Hin (ij & Hballot & Hi).
  destruct (Hb q ij Hin Hballot) as [_ Hj].
  rewrite <- (Z2Nat.id n Hn) in Hj. apply wrap_lt in Hj.
  rewrite (Z2Nat.id n Hn) in Hj.
  eapply Nat.lt_le_trans; [|apply elem_le_sum_list].
  - apply (tallied_positive a_items b_items n i (wrap n ij.2) q Hin).
    now exists ij.
  - apply list_elem_of_fmap. exists (wrap n ij.2). split; [reflexivity|].
    apply elem_of_seq. lia.
Qed.

(** What [match_features] returns when it returns: the matrix of counts,
    each row divided by its sum. *)
Lemma match_features_Ok_inv a_items b_items (n_actions : Z) scale M' :
  match_features cfd a_items b_items n_actions scale = Ok M' →
  0 ≤ n_actions
  ∧ ballots_in_bounds cfd a_items b_items n_actions
  ∧ ∃ M, tally cfd a_items b_items n_actions = Ok M
         ∧ M' = divided_row <$> M
         ∧ square (Z.to_nat n_actions) M
         ∧ holds_counts (Z.to_nat n_actions) M (tallied cfd a_items b_items n_actions).
Proof.
  unfold match_features. intros Hok.
  destruct (tally cfd a_items b_items n_actions) as [M|e] eqn:Ht; [|discriminate].
  cbn [mbind result_bind] in Hok. inversion Hok; subst M'.
  destruct (tally_Ok_inv cfd _ _ _ _ Ht) as [Hn Hb].
  destruct (tally_in_bounds cfd _ _ _ Hn Hb) as (M1 & HM1 & Hsq & Hc).
  rewrite Ht in HM1. inversion HM1; subst M1.
  split; [exact Hn|]. split; [exact Hb|].
  exists M. rewrite normalize_rows_fmap. auto.
Qed.

Lemma returned_row a_items b_items (n_actions : Z) scale M' i row' :
  match_features cfd a_items b_items n_actions scale = Ok M' →
  M' !! i = Some row' →
  (i < Z.to_nat n_actions)%nat
  ∧ row' = divided_row (count_row (tallied cfd a_items b_items n_actions i
                                     <$> seq 0 (Z.to_nat n_actions))).
Proof.
  intros Hok Hrow.
  destruct (match_features_Ok_inv _ _ _ _ _ Hok) as (Hn & Hb & M & Ht & -> & Hsq & Hc).
  rewrite list_lookup_fmap in Hrow.
  assert (Hi : (i < Z.to_nat n_actions)%nat).
  { destruct (M !! i) eqn:HMi; [|discriminate].
    apply lookup_lt_Some in HMi. destruct Hsq as [Hlen _]. lia. }
  split; [exact Hi|].
  rewrite (row_of_counts _ _ _ _ Hsq Hc Hi) in Hrow. simpl in Hrow. congruence.
Qed.

End Returned.

Lemma ballot_predicted {features : Type}
    (cfd : features -> features -> option float64 -> float64)
    (b_items : list (key * features)) (q : key * features) (b : key) :
  predicted cfd b_items q = Some b →
  ballot cfd b_items q = Some (item0 q.1 - 1, item0 b - 1).
Proof. intros Hp. unfold ballot. now rewrite Hp. Qed.

Lemma ballot_Some_inv {features : Type}
    (cfd : features -> features -> option float64 -> float64)
    (b_items : list (key * features)) (q : key * features) (ij : Z * Z) :
  ballot cfd b_items q = Some ij →
  ∃ b, predicted cfd b_items q = Some b ∧ ij = (item0 q.1 - 1, item0 b - 1).
Proof.
  unfold ballot. destruct (predicted cfd b_items q) as [b|]; [|discriminate].
  intros Heq. inversion Heq. eauto.
Qed.

(** ** Row normalization *)

(** C1 (refuted as stated): with three actions and clips of the first two
    only, the third row of the returned matrix is all [nan]. *)
Lemma zero_row_is_divided_by_zero :
  ¬ (∀ (a_features_dict b_features_dict : list (key * list float64))
       (n_actions : Z) (scale : float64) (M : Numpy.ndarray2),
       match_features Ps8.compute_feature_difference
         a_features_dict b_features_dict n_actions scale = Ok M →
       Forall (Forall (fun c => is_nan c = false)) M).
Proof.
  intros Hclaim.
  specialize (Hclaim Sample.clips Sample.clips 3 one
                [[Fin 1; Fin 0; Fin 0]; [Fin 0; Fin 1; Fin 0]; [NaN; NaN; NaN]]).
  assert (Hrun : match_features Ps8.compute_feature_difference
                   Sample.clips Sample.clips 3 one
                 = Ok [[Fin 1; Fin 0; Fin 0]; [Fin 0; Fin 1; Fin 0]; [NaN; NaN; NaN]])
    by (vm_compute; reflexivity).
  specialize (Hclaim Hrun).
  apply Forall_cons in Hclaim as [_ Hclaim].
  apply Forall_cons in Hclaim as [_ Hclaim].
  apply Forall_cons in Hclaim as [Hrow _].
  apply Forall_cons in Hrow as [Hnan _]. clear Hrun. discriminate Hnan.
Qed.

(** C1 (amended): the returned matrix is the matrix of counts with every
    row divided by its sum, a row of sum 0 like any other.  A row in which
    no query landed comes back with [nan] in every cell; a row in which a
    query landed holds finite shares between 0 and 1. *)
Theorem rows_are_divided_by_their_sums {features : Type}
    (cfd : features -> features -> option float64 -> float64)
    (a_features_dict b_features_dict : list (key * features))
    (n_actions : Z) (scale : float64) (M' : Numpy.ndarray2) :
  match_features cfd a_features_dict b_features_dict n_actions scale = Ok M' →
  ∃ M, tally cfd a_features_dict b_features_dict n_actions = Ok M
       ∧ M' = divided_row <$> M
       ∧ ∀ i row', M' !! i = Some row' →
           length row' = Z.to_nat n_actions
           ∧ ((∀ q, q ∈ a_features_dict →
                 ¬ lands_in_row cfd b_features_dict n_actions i q) →
              Forall (eq NaN) row')
           ∧ ((∃ q, q ∈ a_features_dict
                    ∧ lands_in_row cfd b_features_dict n_actions i q) →
              Forall is_share row').
Proof.
  intros Hok.
  destruct (match_features_Ok_inv cfd _ _ _ _ _ Hok) as (Hn & Hb & M & Ht & HM' & Hsq & Hc).
  exists M. split; [exact Ht|]. split; [exact HM'|].
  intros i row' Hrow.
  destruct (returned_row cfd _ _ _ _ _ _ _ Hok Hrow) as [Hi ->].
  split; [|split].
  - unfold divided_row, count_row. now rewrite !length_fmap, length_seq.
  - intros Hnone. apply divided_row_zero, sum_list_fmap_zero.
    intros j. exact (tallied_row_empty cfd _ _ _ _ _ Hnone).
  - intros (q & Hin & Hland). apply divided_row_positive.
    exact (tallied_row_positive cfd _ _ _ _ _ Hn Hb Hin Hland).
Qed.

Lemma rows_are_divided_by_their_sums_witness :
  ∃ M, tally Ps8.compute_feature_difference Sample.clips Sample.clips 3 = Ok M
       ∧ [[Fin 1; Fin 0; Fin 0]; [Fin 0; Fin 1; Fin 0]; [NaN; NaN; NaN]]
         = divided_row <$> M
       ∧ ∀ i row',
           [[Fin 1; Fin 0; Fin 0]; [Fin 0; Fin 1; Fin 0]; [NaN; NaN; NaN]] !! i
           = Some row' →
           length row' = Z.to_nat 3
           ∧ ((∀ q, q ∈ Sample.clips →
                 ¬ lands_in_row Ps8.compute_feature_difference Sample.clips 3 i q) →
              Forall (eq NaN) row')
           ∧ ((∃ q, q ∈ Sample.clips
                    ∧ lands_in_row Ps8.compute_feature_difference Sample.clips 3 i q) →
              Forall is_share row').
Proof.
  apply (rows_are_divided_by_their_sums Ps8.compute_feature_difference
           Sample.clips Sample.clips 3 one).
  vm_compute. reflexivity.
Defined.

(** ** The rounded quotients *)

Section Rounding.

Import Binary64.

Lemma pow2_pos (k : Z) : (0 < pow2 k)%Q.
Proof. apply Qpower_0_lt. reflexivity. Qed.

Lemma pow2_add (a b : Z) : (pow2 (a + b) == pow2 a * pow2 b)%Q.
Proof. apply Qpower_plus. discriminate. Qed.

Lemma pow2_inject (a : Z) : 0 ≤ a → (pow2 a == inject_Z (2 ^ a))%Q.
Proof. intros Ha. unfold pow2. now rewrite (Zpower_Qpower 2 a Ha). Qed.

(** The nearest integer is at most one half away. *)
Lemma nearest_even_error (m : Q) :
  (inject_Z (nearest_even m) - (1 # 2) <= m)%Q
  ∧ (m <= inject_Z (nearest_even m) + (1 # 2))%Q.
Proof.
  unfold nearest_even.
  pose proof (Qfloor_le m) as Hlo. pose proof (Qlt_floor m) as Hhi.
  rewrite inject_Z_plus in Hhi. change (inject_Z 1) with 1%Q in Hhi.
  destruct (m - inject_Z (Qfloor m) ?= 1 # 2)%Q eqn:Hc.
  - apply Qeq_alt in Hc. destruct (Z.even (Qfloor m));
      rewrite ?inject_Z_plus; change (inject_Z 1) with 1%Q; split; lra.
  - apply Qlt_alt in Hc. split; lra.
  - apply Qgt_alt in Hc. rewrite inject_Z_plus. change (inject_Z 1) with 1%Q. split; lra.
Qed.

Lemma exponent_le (x : Q) : (0 < x)%Q → (pow2 (exponent x) <= x)%Q.
Proof.
  intros Hx. unfold exponent.
  destruct (Qle_bool _ x) eqn:Hb; [now apply Qle_bool_iff|].
  destruct x as [n d]. cbn [Qnum Qden] in *.
  assert (Hn : 0 < n) by (unfold Qlt in Hx; simpl in Hx; lia).
  destruct (Z.log2_spec n Hn) as [Hlo _].
  destruct (Z.log2_spec (Zpos d) (Pos2Z.is_pos d)) as [_ Hhi].
  pose proof (Z.log2_nonneg n) as Ha. pose proof (Z.log2_nonneg (Zpos d)) as Hb'.
  set (a := Z.log2 n) in *. set (b := Z.log2 (Zpos d)) in *.
  replace (a - b - 1) with (a + - (b + 1)) by lia.
  rewrite pow2_add. unfold pow2 at 2. rewrite Qpower_opp. fold (pow2 (b + 1)).
  rewrite (pow2_inject a Ha), (pow2_inject (b + 1)) by lia.
  rewrite (Qmake_Qdiv n d).
  assert (H1 : (inject_Z (2 ^ a) <= inject_Z n)%Q) by now rewrite <- Zle_Qle.
  assert (H2 : (inject_Z (Zpos d) < inject_Z (2 ^ (b + 1)))%Q).
  { rewrite <- Zlt_Qlt. replace (b + 1) with (Z.succ b) by lia. exact Hhi. }
  assert (H3 : (0 < inject_Z (Zpos d))%Q) by (rewrite <- (Zlt_Qlt 0); lia).
  assert (H4 : (0 < inject_Z (2 ^ a))%Q)
    by (rewrite <- (Zlt_Qlt 0); apply Z.pow_pos_nonneg; lia).
  set (A := inject_Z (2 ^ a)) in *. set (B := inject_Z (2 ^ (b + 1))) in *.
  set (N := inject_Z n) in *. set (D := inject_Z (Zpos d)) in *.
  apply Qle_shift_div_l; [exact H3|].
  assert (HB : (0 < B)%Q) by lra.
  assert (Hinv : (0 < / B)%Q) by now apply Qinv_lt_0_compat.
  assert (HBD : (/ B * D <= 1)%Q).
  { apply Qle_shift_div_r with (b := B) (a := D) (c := 1%Q) in HB as Hq; [|lra].
    unfold Qdiv in Hq. lra. }
  nra.
Qed.

Lemma exponent_lt (x : Q) : (0 < x)%Q → (x < pow2 (exponent x + 1))%Q.
Proof.
  intros Hx. unfold exponent.
  destruct (Qle_bool _ x) eqn:Hb.
  2: { replace (Z.log2 (Qnum x) - Z.log2 (Zpos (Qden x)) - 1 + 1)
         with (Z.log2 (Qnum x) - Z.log2 (Zpos (Qden x))) by lia.
       apply Qnot_le_lt. intros Hle. apply Qle_bool_iff in Hle. congruence. }
  destruct x as [n d]. cbn [Qnum Qden] in *.
  assert (Hn : 0 < n) by (unfold Qlt in Hx; simpl in Hx; lia).
  destruct (Z.log2_spec n Hn) as [_ Hhi].
  destruct (Z.log2_spec (Zpos d) (Pos2Z.is_pos d)) as [Hlo _].
  pose proof (Z.log2_nonneg n) as Ha. pose proof (Z.log2_nonneg (Zpos d)) as Hb'.
  set (a := Z.log2 n) in *. set (b := Z.log2 (Zpos d)) in *.
  replace (a - b + 1) with ((a + 1) + - b) by lia.
  rewrite pow2_add. unfold pow2 at 2. rewrite Qpower_opp. fold (pow2 b).
  rewrite (pow2_inject (a + 1)), (pow2_inject b Hb') by lia.
  rewrite (Qmake_Qdiv n d).
  assert (H1 : (inject_Z n < inject_Z (2 ^ (a + 1)))%Q).
  { rewrite <- Zlt_Qlt. replace (a + 1) with (Z.succ a) by lia. exact Hhi. }
  assert (H2 : (inject_Z (2 ^ b) <= inject_Z (Zpos d))%Q) by now rewrite <- Zle_Qle.
  assert (H3 : (0 < inject_Z (2 ^ b))%Q)
    by (rewrite <- (Zlt_Qlt 0); apply Z.pow_pos_nonneg; lia).
  assert (H4 : (0 < inject_Z n)%Q) by (rewrite <- (Zlt_Qlt 0); lia).
  set (A := inject_Z (2 ^ (a + 1))) in *. set (B := inject_Z (2 ^ b)) in *.
  set (N := inject_Z n) in *. set (D := inject_Z (Zpos d)) in *.
  assert (HD : (0 < D)%Q) by lra.
  apply Qlt_shift_div_r; [exact HD|].
  assert (Hinv : (0 < / B)%Q) by now apply Qinv_lt_0_compat.
  assert (HBD : (1 <= / B * D)%Q).
  { apply Qle_shift_div_l with (a := 1%Q) (b := D) (c := B) in H3 as Hq; [|lra].
    unfold Qdiv in Hq. lra. }
  nra.
Qed.

(** Rounding moves a non-negative value by at most the fraction [u] of
    it. *)
Lemma round64_bounds (x : Q) :
  (0 <= x)%Q → ((1 - u) * x <= round64 x)%Q ∧ (round64 x <= (1 + u) * x)%Q.
Proof.
  intros Hx. unfold round64.
  destruct (x ?= 0)%Q eqn:Hc.
  - apply Qeq_alt in Hc. unfold u. split; lra.
  - apply Qlt_alt in Hc. lra.
  - apply Qgt_alt in Hc. cbv zeta. rewrite Qred_correct.
    pose proof (exponent_le x Hc) as He.
    set (e := exponent x) in *.
    destruct (nearest_even_error (x * pow2 (52 - e))) as [Hlo Hhi].
    set (r := inject_Z (nearest_even (x * pow2 (52 - e)))) in *.
    pose proof (pow2_pos (52 - e)) as HP. pose proof (pow2_pos (e - 52)) as HP'.
    assert (Hone : (pow2 (52 - e) * pow2 (e - 52) == 1)%Q).
    { rewrite <- pow2_add. replace (52 - e + (e - 52)) with 0 by lia. reflexivity. }
    assert (Hexp : (pow2 e == inject_Z (2 ^ 52) * pow2 (e - 52))%Q).
    { rewrite <- (pow2_inject 52) by lia. rewrite <- pow2_add.
      now replace (52 + (e - 52)) with e by lia. }
    rewrite Hexp in He.
    set (P := pow2 (52 - e)) in *. set (P' := pow2 (e - 52)) in *.
    assert (H1 : ((r - (1 # 2)) * P' <= x * P * P')%Q)
      by (apply Qmult_le_compat_r; lra).
    assert (H2 : (x * P * P' <= (r + (1 # 2)) * P')%Q)
      by (apply Qmult_le_compat_r; lra).
    assert (H3 : (x * P * P' == x)%Q) by (rewrite <- Qmult_assoc, Hone; ring).
    rewrite H3 in H1, H2.
    change (inject_Z (2 ^ 52)) with (4503599627370496 # 1)%Q in He.
    unfold u. split; lra.
Qed.

Lemma up_pow_succ (k : nat) :
  ((1 + u) ^ Z.of_nat (S k) == (1 + u) ^ Z.of_nat k * (1 + u))%Q.
Proof.
  rewrite Nat2Z.inj_succ. unfold Z.succ.
  rewrite Qpower_plus by (unfold u; discriminate). reflexivity.
Qed.

Lemma down_pow_succ (k : nat) :
  ((1 - u) ^ Z.of_nat (S k) == (1 - u) ^ Z.of_nat k * (1 - u))%Q.
Proof.
  rewrite Nat2Z.inj_succ. unfold Z.succ.
  rewrite Qpower_plus by (unfold u; discriminate). reflexivity.
Qed.

Lemma up_pow_ge_1 (k : nat) : (1 <= (1 + u) ^ Z.of_nat k)%Q.
Proof.
  induction k as [|k IH]; [discriminate|].
  rewrite up_pow_succ. unfold u in *.
  set (A := ((1 + (1 # 9007199254740992)) ^ Z.of_nat k)%Q) in *. nra.
Qed.

Lemma down_pow_le_1 (k : nat) :
  (0 < (1 - u) ^ Z.of_nat k)%Q ∧ ((1 - u) ^ Z.of_nat k <= 1)%Q.
Proof.
  induction k as [|k [IH1 IH2]]; [split; [reflexivity|discriminate]|].
  rewrite down_pow_succ. unfold u in *.
  set (A := ((1 - (1 # 9007199254740992)) ^ Z.of_nat k)%Q) in *. split; nra.
Qed.

(** Adding non-negative values with a rounding after each addition: one
    factor [1 - u] or [1 + u] per addition. *)
Lemma rounded_sum_bounds (qs : list Q) (acc total : Q) (k : nat) :
  Forall (fun q => 0 <= q)%Q qs → (0 <= total)%Q →
  ((1 - u) ^ Z.of_nat k * total <= acc)%Q →
  (acc <= (1 + u) ^ Z.of_nat k * total)%Q →
  ((1 - u) ^ Z.of_nat (k + length qs) * (total + foldr Qplus 0 qs)
   <= foldl (fun a q => round64 (Qred (a + q))) acc qs)%Q
  ∧ (foldl (fun a q => round64 (Qred (a + q))) acc qs
     <= (1 + u) ^ Z.of_nat (k + length qs) * (total + foldr Qplus 0 qs))%Q.
Proof.
  intros Hqs. revert acc total k.
  induction Hqs as [|q qs Hq Hqs IH]; intros acc total k Htotal Hlo Hhi.
  - cbn [foldl foldr length]. rewrite Nat.add_0_r. split.
    + setoid_replace (total + 0)%Q with total using relation Qeq by ring. exact Hlo.
    + setoid_replace (total + 0)%Q with total using relation Qeq by ring. exact Hhi.
  - cbn [foldl foldr length].
    replace (k + S (length qs))%nat with (S k + length qs)%nat by lia.
    setoid_replace (total + (q + foldr Qplus 0 qs))%Q
      with ((total + q) + foldr Qplus 0 qs)%Q using relation Qeq by ring.
    pose proof (up_pow_ge_1 k) as HA. destruct (down_pow_le_1 k) as [HB0 HB1].
    assert (Hacc : (0 <= acc)%Q).
    { eapply Qle_trans; [|exact Hlo]. apply Qmult_le_0_compat; lra. }
    pose proof (Qred_correct (acc + q)) as HX.
    destruct (round64_bounds (Qred (acc + q))) as [Hrlo Hrhi]; [lra|].
    set (X := Qred (acc + q)) in *. set (R := round64 X) in *.
    apply IH.
    + lra.
    + rewrite down_pow_succ.
      set (B := ((1 - u) ^ Z.of_nat k)%Q) in *. unfold u in *.
      assert (H1 : (B * q <= q)%Q) by nra.
      assert (H2 : (B * (total + q) <= X)%Q) by lra.
      nra.
    + rewrite up_pow_succ.
      set (A := ((1 + u) ^ Z.of_nat k)%Q) in *. unfold u in *.
      assert (H1 : (q <= A * q)%Q) by nra.
      assert (H2 : (X <= A * (total + q))%Q) by lra.
      nra.
Qed.

(** Rounding every term of a sum of non-negative values moves the sum by
    at most the fraction [u] of it. *)
Lemma sum_of_rounded_bounds (ys : list Q) :
  Forall (fun q => 0 <= q)%Q ys →
  Forall (fun q => 0 <= q)%Q (round64 <$> ys)
  ∧ ((1 - u) * foldr Qplus 0 ys <= foldr Qplus 0 (round64 <$> ys))%Q
  ∧ (foldr Qplus 0 (round64 <$> ys) <= (1 + u) * foldr Qplus 0 ys)%Q.
Proof.
  induction 1 as [|y ys Hy Hys (IH0 & IH1 & IH2)]; cbn [fmap list_fmap foldr].
  - split; [constructor|]. unfold u. split; lra.
  - destruct (round64_bounds y Hy) as [Hlo Hhi]. split.
    + constructor; [|exact IH0]. unfold u in *. nra.
    + unfold u in *. split; lra.
Qed.

Lemma binary64_sum_fin (qs : list Q) (acc : Q) :
  foldl (fun a c => rounded (fadd a c)) (Fin acc) (Fin <$> qs)
  = Fin (foldl (fun a q => round64 (Qred (a + q))) acc qs).
Proof.
  revert acc. induction qs as [|q qs IH]; intros acc; [reflexivity|].
  cbn [fmap list_fmap foldl fadd rounded]. apply IH.
Qed.

(** The cells of a row with at least one count, as quotients. *)
Lemma divided_row_shares (cs : list nat) :
  (0 < sum_list cs)%nat →
  divided_row (count_row cs)
  = Fin <$> ((fun c => Qred (inject_Z (Z.of_nat c) / inject_Z (Z.of_nat (sum_list cs))))
             <$> cs).
Proof.
  intros Hs. unfold divided_row. rewrite sum_count_row.
  unfold count_row. rewrite <- !list_fmap_compose. apply list_fmap_ext.
  intros _ c _. simpl. now apply fdiv_counts.
Qed.

(** A row with at least one count, as binary64 holds it and adds it up:
    the sum is 1 up to one rounding per cell and one per addition. *)
Lemma divided_row_binary64 (cs : list nat) :
  (0 < sum_list cs)%nat →
  ∃ total,
    Binary64.sum (rounded <$> divided_row (count_row cs)) = Fin total
    ∧ ((1 - u) ^ (Z.of_nat (length cs) + 1) <= total)%Q
    ∧ (total <= (1 + u) ^ (Z.of_nat (length cs) + 1))%Q.
Proof.
  intros Hs. rewrite (divided_row_shares cs Hs).
  set (ys := (fun c => Qred (inject_Z (Z.of_nat c) / inject_Z (Z.of_nat (sum_list cs))))
             <$> cs).
  assert (Hys : Forall (fun q => 0 <= q)%Q ys).
  { apply Forall_fmap, Forall_forall. intros c Hc. simpl.
    destruct (share_of_counts c (sum_list cs) Hs (elem_le_sum_list _ _ Hc))
      as (q & Heq & Hq & _).
    inversion Heq; subst q. exact Hq. }
  assert (Hone : (foldr Qplus 0 ys == 1)%Q).
  { unfold ys. rewrite (shares_add_up _ _ Hs).
    apply Qmult_inv_r. unfold Qeq. simpl. lia. }
  destruct (sum_of_rounded_bounds ys Hys) as (Hrs & Hlo & Hhi).
  rewrite Hone in Hlo, Hhi.
  assert (Hrow : rounded <$> (Fin <$> ys) = Fin <$> (round64 <$> ys)).
  { rewrite <- !list_fmap_compose. now apply list_fmap_ext. }
  rewrite Hrow. unfold Binary64.sum, zero. rewrite binary64_sum_fin.
  eexists. split; [reflexivity|].
  destruct (rounded_sum_bounds (round64 <$> ys) 0 0 0 Hrs) as [Hsumlo Hsumhi];
    [lra|cbn; lra|cbn; lra|].
  rewrite Qplus_0_l in Hsumlo, Hsumhi.
  cbn [Nat.add] in Hsumlo, Hsumhi. rewrite length_fmap in Hsumlo, Hsumhi.
  assert (Hlen : length ys = length cs) by (unfold ys; apply length_fmap).
  rewrite Hlen in Hsumlo, Hsumhi.
  replace (Z.of_nat (length cs) + 1) with (Z.of_nat (S (length cs))) by lia.
  rewrite down_pow_succ, up_pow_succ.
  pose proof (up_pow_ge_1 (length cs)) as HA.
  destruct (down_pow_le_1 (length cs)) as [HB0 HB1].
  set (A := ((1 + u) ^ Z.of_nat (length cs))%Q) in *.
  set (B := ((1 - u) ^ Z.of_nat (length cs))%Q) in *.
  set (T := foldr Qplus 0%Q (round64 <$> ys)) in *.
  set (R := foldl (fun a q => round64 (Qred (a + q))) 0%Q (round64 <$> ys)) in *.
  unfold u in *. split; nra.
Qed.

End Rounding.

(** C3: in a returned matrix, the row of every query that obtained a best
    match is a distribution up to rounding: its quotients lie between 0
    and 1, and the row as binary64 holds it - each quotient rounded to 53
    bits - adds up in binary64 to 1 within one rounding per cell and one
    per addition: between [(1 - 2^-53)^(n_actions + 1)] and
    [(1 + 2^-53)^(n_actions + 1)]. *)
Theorem matched_row_sums_to_one {features : Type}
    (cfd : features -> features -> option float64 -> float64)
    (a_features_dict b_features_dict : list (key * features))
    (n_actions : Z) (scale : float64) (M' : Numpy.ndarray2)
    (a_item : key * features) (b : key) :
  match_features cfd a_features_dict b_features_dict n_actions scale = Ok M' →
  a_item ∈ a_features_dict →
  predicted cfd b_features_dict a_item = Some b →
  ∃ r row', Numpy.index (Z.to_nat n_actions) (item0 a_item.1 - 1) = Ok r
            ∧ M' !! r = Some row'
            ∧ Forall is_share row'
            ∧ ∃ total,
                Binary64.sum (Binary64.rounded <$> row') = Fin total
                ∧ ((1 - Binary64.u) ^ (n_actions + 1) <= total)%Q
                ∧ (total <= (1 + Binary64.u) ^ (n_actions + 1))%Q.
Proof.
  intros Hok Hin Hp.
  destruct (match_features_Ok_inv cfd _ _ _ _ _ Hok) as (Hn & Hb & M & Ht & HM' & Hsq & Hc).
  pose proof (ballot_predicted cfd _ _ _ Hp) as Hballot.
  destruct (Hb _ _ Hin Hballot) as [Hi _]. cbn [fst] in Hi.
  pose proof Hi as Hi'. rewrite <- (Z2Nat.id n_actions Hn) in Hi'.
  pose proof (wrap_lt _ _ Hi') as Hlt.
  pose proof (index_in_bounds _ _ Hi') as Hidx.
  rewrite (Z2Nat.id n_actions Hn) in Hidx, Hlt.
  set (r := wrap n_actions (item0 a_item.1 - 1)) in *.
  destruct (square_row _ M r Hsq Hlt) as (row & Hrow & _).
  assert (Hrow' : M' !! r = Some (divided_row row))
    by (subst M'; now rewrite list_lookup_fmap, Hrow).
  exists r, (divided_row row). split; [exact Hidx|]. split; [exact Hrow'|].
  destruct (returned_row cfd _ _ _ _ _ _ _ Hok Hrow') as [_ ->].
  assert (Hpos : (0 < sum_list (tallied cfd a_features_dict b_features_dict n_actions r
                                  <$> seq 0 (Z.to_nat n_actions)))%nat).
  { apply (tallied_row_positive cfd _ _ _ _ a_item Hn Hb Hin).
    exists (item0 a_item.1 - 1, item0 b - 1). auto. }
  split; [apply divided_row_positive, Hpos|].
  destruct (divided_row_binary64 _ Hpos) as (total & Hsum & Hlo & Hhi).
  rewrite length_fmap, length_seq, (Z2Nat.id n_actions Hn) in Hlo, Hhi.
  exists total. auto.
Qed.

Lemma matched_row_sums_to_one_witness :
  ∃ r row', Numpy.index (Z.to_nat 3) (item0 (1, 1, 1) - 1) = Ok r
            ∧ [[Fin 0; Fin (1 # 3); Fin (2 # 3)]; [Fin 1; Fin 0; Fin 0];
               [Fin 1; Fin 0; Fin 0]] !! r = Some row'
            ∧ Forall is_share row'
            ∧ ∃ total,
                Binary64.sum (Binary64.rounded <$> row') = Fin total
                ∧ ((1 - Binary64.u) ^ (3 + 1) <= total)%Q
                ∧ (total <= (1 + Binary64.u) ^ (3 + 1))%Q.
Proof.
  apply (matched_row_sums_to_one Ps8.compute_feature_difference
           Sample.mixed Sample.mixed 3 one _
           ((1, 1, 1), Sample.descriptor 0 0) (3, 1, 1)).
  - vm_compute. reflexivity.
  - unfold Sample.mixed. set_solver.
  - vm_compute. reflexivity.
Defined.

(** The row of counts 1, 4, 1 adds up, in binary64, to the double just
    below 1. *)
Lemma binary64_row_below_one :
  Binary64.sum (Binary64.rounded <$> divided_row (count_row [1; 4; 1]%nat))
  = Fin (9007199254740991 # 9007199254740992).
Proof. vm_compute. reflexivity. Qed.

(** ** Where the counts go *)

Lemma wrap_nonneg (n i : Z) : 0 ≤ i → wrap n i = Z.to_nat i.
Proof. intros Hi. unfold wrap. destruct (Z.ltb_spec i 0); [lia|reflexivity]. Qed.

Lemma wrap_minus_one (n : Z) : wrap n (0 - 1) = Z.to_nat (n - 1).
Proof. unfold wrap. simpl. f_equal. lia. Qed.

Lemma tally_query_predicted {features : Type}
    (cfd : features -> features -> option float64 -> float64)
    (b_items : list (key * features)) M (q : key * features) (b : key) :
  predicted cfd b_items q = Some b →
  tally_query cfd b_items M q
  = Numpy.iadd_item M (item0 q.1 - 1) (item0 b - 1) one.
Proof.
  intros Hp. rewrite tally_query_ballot.
  now rewrite (ballot_predicted cfd _ _ _ Hp).
Qed.

Lemma tally_not_in_bounds {features : Type}
    (cfd : features -> features -> option float64 -> float64)
    (a_items b_items : list (key * features)) (n_actions : Z) :
  0 ≤ n_actions → ¬ ballots_in_bounds cfd a_items b_items n_actions →
  tally cfd a_items b_items n_actions = Raise IndexError.
Proof.
  intros Hn Hbad.
  destruct (tally cfd a_items b_items n_actions) as [M|e] eqn:Ht.
  - destruct (tally_Ok_inv cfd _ _ _ _ Ht) as [_ Hb]. contradiction.
  - destruct (tally_raises cfd _ _ _ _ Ht) as [[Hneg _]|(_ & -> & _)]; [lia|reflexivity].
Qed.

(** C6: when the action index of every query with a best match, and of
    that match, lies in [1..n_actions], the loop returns an
    [n_actions] by [n_actions] matrix; one pass of its body adds exactly 1
    to the cell [[true_action - 1][predicted_action - 1]] and touches no
    other cell, so that the cell of a pair of actions ends up holding the
    number of queries of the first action whose best match is of the
    second. *)
Theorem one_count_per_matched_query {features : Type}
    (cfd : features -> features -> option float64 -> float64)
    (a_features_dict b_features_dict : list (key * features)) (n_actions : Z) :
  0 ≤ n_actions →
  (∀ q b, q ∈ a_features_dict → predicted cfd b_features_dict q = Some b →
     1 ≤ item0 q.1 ≤ n_actions ∧ 1 ≤ item0 b ≤ n_actions) →
  (∀ M0 q b, square (Z.to_nat n_actions) M0 → q ∈ a_features_dict →
     predicted cfd b_features_dict q = Some b →
     tally_query cfd b_features_dict M0 q
     = Ok (alter (alter (fun x => fadd x one) (Z.to_nat (item0 b - 1)))
             (Z.to_nat (item0 q.1 - 1)) M0))
  ∧ (∀ q true_action predicted_action, q ∈ a_features_dict →
       1 ≤ true_action ≤ n_actions → 1 ≤ predicted_action ≤ n_actions →
       lands cfd b_features_dict n_actions
         (Z.to_nat (true_action - 1)) (Z.to_nat (predicted_action - 1)) q
       ↔ ∃ b, predicted cfd b_features_dict q = Some b
              ∧ item0 q.1 = true_action ∧ item0 b = predicted_action)
  ∧ ∃ M, tally cfd a_features_dict b_features_dict n_actions = Ok M
         ∧ square (Z.to_nat n_actions) M
         ∧ (∀ true_action predicted_action,
              1 ≤ true_action ≤ n_actions → 1 ≤ predicted_action ≤ n_actions →
              cell M (Z.to_nat (true_action - 1)) (Z.to_nat (predicted_action - 1))
              = Some (Fin (inject_Z (Z.of_nat
                  (tallied cfd a_features_dict b_features_dict n_actions
                     (Z.to_nat (true_action - 1)) (Z.to_nat (predicted_action - 1)))))))
         ∧ ∀ scale, match_features cfd a_features_dict b_features_dict n_actions scale
                    = Ok (normalize_rows M).
Proof.
  intros Hn Hrange.
  assert (Hb : ballots_in_bounds cfd a_features_dict b_features_dict n_actions).
  { intros q ij Hin Hballot.
    destruct (ballot_Some_inv cfd _ _ _ Hballot) as (b & Hp & ->).
    destruct (Hrange q b Hin Hp). unfold in_bounds. simpl. lia. }
  split; [|split].
  - intros M0 q b Hsq Hin Hp. rewrite (tally_query_predicted cfd _ _ _ _ Hp).
    destruct (Hrange q b Hin Hp) as [Hq Hbk].
    rewrite (iadd_item_in_bounds (Z.to_nat n_actions)); trivial.
    + rewrite !Z2Nat.id by exact Hn. now rewrite !wrap_nonneg by lia.
    + rewrite Z2Nat.id by exact Hn. unfold in_bounds. lia.
    + rewrite Z2Nat.id by exact Hn. unfold in_bounds. lia.
  - intros q ta pa Hin Hta Hpa. split.
    + intros (ij & Hballot & Hi & Hj).
      destruct (ballot_Some_inv cfd _ _ _ Hballot) as (b & Hp & ->).
      destruct (Hrange q b Hin Hp) as [Hq Hbk]. cbn [fst snd] in Hi, Hj.
      rewrite wrap_nonneg in Hi, Hj by lia.
      exists b. split; [exact Hp|]. lia.
    + intros (b & Hp & <- & <-). exists (item0 q.1 - 1, item0 b - 1).
      split; [now apply ballot_predicted|]. cbn [fst snd].
      now rewrite !wrap_nonneg by lia.
  - destruct (tally_in_bounds cfd _ _ _ Hn Hb) as (M & Ht & Hsq & Hc).
    exists M. split; [exact Ht|]. split; [exact Hsq|]. split.
    + intros ta pa Hta Hpa. apply Hc; lia.
    + intros scale. unfold match_features. now rewrite Ht.
Qed.

Lemma one_count_per_matched_query_witness :
  ∃ M, tally Ps8.compute_feature_difference Sample.mixed Sample.mixed 3 = Ok M
       ∧ M = [[Fin 0; Fin 1; Fin 2]; [Fin 1; Fin 0; Fin 0]; [Fin 2; Fin 0; Fin 0]]
       ∧ cell M (Z.to_nat (1 - 1)) (Z.to_nat (3 - 1))
         = Some (Fin (inject_Z (Z.of_nat
             (tallied Ps8.compute_feature_difference Sample.mixed Sample.mixed 3
                (Z.to_nat (1 - 1)) (Z.to_nat (3 - 1)))))).
Proof.
  destruct (one_count_per_matched_query Ps8.compute_feature_difference
              Sample.mixed Sample.mixed 3) as (_ & _ & M & Ht & _ & Hcell & _).
  - lia.
  - intros q b Hin Hp. unfold Sample.mixed in Hin. set_unfold.
    destruct_or!; subst q; vm_compute in Hp; inversion Hp; subst b;
      vm_compute; intuition discriminate.
  - exists M. split; [exact Ht|]. split.
    + vm_compute in Ht. now inversion Ht.
    + apply Hcell; lia.
Defined.

(** C10: the action indices are not checked.  With [n_actions] positive,
    a query of action index 0 that has a best match adds its count to the
    last row, and a best match of action index 0 sends the count to the
    last column; the call returns a matrix as long as every index lies in
    [0..n_actions].  An action index above [n_actions], of a query with a
    best match or of that match, ends the pass, and the call, with an
    IndexError. *)
Theorem action_index_is_not_validated {features : Type}
    (cfd : features -> features -> option float64 -> float64)
    (a_features_dict b_features_dict : list (key * features)) (n_actions : Z)
    (M : Numpy.ndarray2) (q : key * features) (b : key) :
  0 < n_actions → square (Z.to_nat n_actions) M →
  predicted cfd b_features_dict q = Some b →
  (item0 q.1 = 0 → in_bounds n_actions (item0 b - 1) →
     tally_query cfd b_features_dict M q
     = Ok (alter (alter (fun x => fadd x one) (wrap n_actions (item0 b - 1)))
             (Z.to_nat (n_actions - 1)) M))
  ∧ (item0 b = 0 → in_bounds n_actions (item0 q.1 - 1) →
       tally_query cfd b_features_dict M q
       = Ok (alter (alter (fun x => fadd x one) (Z.to_nat (n_actions - 1)))
               (wrap n_actions (item0 q.1 - 1)) M))
  ∧ (q ∈ a_features_dict → item0 q.1 = 0 →
       (∀ q' b', q' ∈ a_features_dict → predicted cfd b_features_dict q' = Some b' →
          0 ≤ item0 q'.1 ≤ n_actions ∧ 0 ≤ item0 b' ≤ n_actions) →
       lands_in_row cfd b_features_dict n_actions (Z.to_nat (n_actions - 1)) q
       ∧ ∀ scale, ∃ M', match_features cfd a_features_dict b_features_dict
                          n_actions scale = Ok M')
  ∧ (n_actions < item0 q.1 ∨ n_actions < item0 b →
       tally_query cfd b_features_dict M q = Raise IndexError)
  ∧ (q ∈ a_features_dict → n_actions < item0 q.1 ∨ n_actions < item0 b →
       ∀ scale, match_features cfd a_features_dict b_features_dict n_actions scale
                = Raise IndexError).
Proof.
  intros Hn Hsq Hp.
  assert (Hn0 : 0 ≤ n_actions) by lia.
  pose proof (ballot_predicted cfd _ _ _ Hp) as Hballot.
  assert (Hlast : in_bounds n_actions (0 - 1)) by (unfold in_bounds; lia).
  split; [|split; [|split; [|split]]].
  - intros Hq Hbk. rewrite (tally_query_predicted cfd _ _ _ _ Hp), Hq.
    rewrite (iadd_item_in_bounds (Z.to_nat n_actions)); trivial;
      rewrite ?Z2Nat.id by exact Hn0; trivial.
    now rewrite wrap_minus_one.
  - intros Hbk Hq. rewrite (tally_query_predicted cfd _ _ _ _ Hp), Hbk.
    rewrite (iadd_item_in_bounds (Z.to_nat n_actions)); trivial;
      rewrite ?Z2Nat.id by exact Hn0; trivial.
    now rewrite wrap_minus_one.
  - intros Hin Hq Hrange. split.
    + exists (item0 q.1 - 1, item0 b - 1). split; [exact Hballot|].
      cbn [fst]. rewrite Hq. apply wrap_minus_one.
    + intros scale.
      assert (Hb : ballots_in_bounds cfd a_features_dict b_features_dict n_actions).
      { intros q' ij Hin' Hballot'.
        destruct (ballot_Some_inv cfd _ _ _ Hballot') as (b' & Hp' & ->).
        destruct (Hrange q' b' Hin' Hp'). unfold in_bounds. simpl. lia. }
      destruct (tally_in_bounds cfd _ _ _ Hn0 Hb) as (M1 & Ht & _).
      exists (normalize_rows M1). unfold match_features. now rewrite Ht.
  - intros Hover. rewrite (tally_query_predicted cfd _ _ _ _ Hp).
    apply (iadd_item_out_of_bounds (Z.to_nat n_actions)); [exact Hsq|].
    rewrite Z2Nat.id by exact Hn0. unfold in_bounds. lia.
  - intros Hin Hover scale. unfold match_features.
    rewrite tally_not_in_bounds; [reflexivity|exact Hn0|].
    intros Hb. destruct (Hb q _ Hin Hballot) as [Hi Hj].
    unfold in_bounds in Hi, Hj. cbn [fst snd] in Hi, Hj. lia.
Qed.

Lemma action_index_is_not_validated_witness :
  tally_query Ps8.compute_feature_difference Sample.stray
    [[zero; zero]; [zero; zero]] ((0, 1, 1), Sample.descriptor 0 0)
  = Ok [[Fin 0; Fin 0]; [Fin 1; Fin 0]]
  ∧ match_features Ps8.compute_feature_difference Sample.stray Sample.stray 2 one
    = Ok [[Fin 0; Fin 1]; [Fin 1; Fin 0]]
  ∧ match_features Ps8.compute_feature_difference Sample.stray Sample.stray 1 one
    = Raise IndexError.
Proof.
  split; [|split].
  - destruct (action_index_is_not_validated Ps8.compute_feature_difference
                Sample.stray Sample.stray 2 [[zero; zero]; [zero; zero]]
                ((0, 1, 1), Sample.descriptor 0 0) (1, 1, 1)) as (Hrow & _).
    + lia.
    + split; [reflexivity|]. repeat constructor.
    + vm_compute. reflexivity.
    + etransitivity; [apply Hrow|].
      * reflexivity.
      * unfold in_bounds, item0. cbn [fst]. lia.
      * vm_compute. reflexivity.
  - vm_compute. reflexivity.
  - destruct (action_index_is_not_validated Ps8.compute_feature_difference
                Sample.stray Sample.stray 1 [[zero]]
                ((2, 1, 1), Sample.descriptor 10 0) (1, 1, 1)) as (_ & _ & _ & _ & Hfail).
    + lia.
    + split; [reflexivity|]. repeat constructor.
    + vm_compute. reflexivity.
    + apply Hfail.
      * unfold Sample.stray. set_solver.
      * left. unfold item0. cbn [fst]. lia.
Defined.

(** ** The scale argument *)

(** C7 (the code departs from the claim): [match_features] drops its
    [scale] argument.  Its result is the same for every scale, and is the
    result obtained with a helper that ignores any scale it is given.  On
    the four sample clips the query [(1, 1, 1)] is matched at the unscaled
    distance 5 when the scale is 2; with a scale of 0 the code still
    returns the identity matrix, where a matcher that handed the scale to
    the helper would send every query to its first candidate. *)
Theorem scale_is_not_forwarded :
  (∀ (features : Type) (cfd : features -> features -> option float64 -> float64)
     (a_features_dict b_features_dict : list (key * features))
     (n_actions : Z) (scale scale' : float64),
     match_features cfd a_features_dict b_features_dict n_actions scale
     = match_features cfd a_features_dict b_features_dict n_actions scale'
     ∧ match_features cfd a_features_dict b_features_dict n_actions scale
       = match_features (fun x y _ => cfd x y None)
           a_features_dict b_features_dict n_actions scale)
  ∧ nearest Ps8.compute_feature_difference (1, 1, 1) (Sample.descriptor 0 0) Sample.clips
    = (Fin 5, Some (1, 2, 1))
  ∧ Ps8.compute_feature_difference (Sample.descriptor 0 0) (Sample.descriptor 3 4)
      (Some (Fin 2)) = Fin 10
  ∧ match_features Ps8.compute_feature_difference Sample.clips Sample.clips 2 (Fin 0)
    = Ok [[Fin 1; Fin 0]; [Fin 0; Fin 1]]
  ∧ match_features (fun x y _ => Ps8.compute_feature_difference x y (Some (Fin 0)))
      Sample.clips Sample.clips 2 (Fin 0)
    = Ok [[Fin 1; Fin 0]; [Fin 1; Fin 0]].
Proof.
  split; [|repeat split; vm_compute; reflexivity].
  intros features cfd a_features_dict b_features_dict n_actions scale scale'.
  split; [reflexivity|].
  unfold match_features, tally.
  destruct (Numpy.zeros n_actions) as [M0|e]; [|reflexivity].
  cbn [mbind result_bind].
  rewrite (tally_loop_ext cfd (fun x y _ => cfd x y None)); [reflexivity|].
  intros a_item _. now apply scan_ext.
Qed.

(** ** The driver loop *)

Section DriverLoop.

Context {frame kwargs : Type}.
Variable cls : builder_class frame kwargs.

(** The loop either stops before any frame, leaving the state as it was,
    or ends with the builder that served its first frame (the one at
    hand, or a new one made from that frame), fed with the frames read;
    an MHI taken inside the loop is that builder's. *)
Lemma read_loop_spec (video : list (read frame)) save_frames mhi_frame kw
    (st st' : loop_state cls) :
  mhi cls st = None →
  read_loop cls video save_frames mhi_frame kw st = Ok st' →
  (st' = st ∧ ∀ f rest, video ≠ Frame f :: rest)
  ∨ ∃ f frames after b0 b,
      video = Frame f :: (Frame <$> frames) ++ after
      ∧ match mhi_builder cls st with
        | None => init cls f kw
        | Some b => Ok b
        end = Ok b0
      ∧ feed cls b0 (f :: frames) = Ok b
      ∧ mhi_builder cls st' = Some b
      ∧ ∀ m, mhi cls st' = Some m → get_MHI cls b = Ok m.
Proof.
  revert st. induction video as [|[f|] rest IH]; intros st Hnone Hloop.
  - left. simpl in Hloop. inversion Hloop. split; [reflexivity|congruence].
  - right. cbn [read_loop] in Hloop.
    destruct (match mhi_builder cls st with
              | None => init cls f kw
              | Some b => Ok b
              end) as [b0|e] eqn:Hstart;
      cbn [mbind result_bind] in Hloop; [|discriminate].
    destruct (process cls b0 f) as [[motion_image b1]|e] eqn:Hprocess;
      cbn [mbind result_bind] in Hloop; [|discriminate].
    destruct (bool_decide (Some (frame_num cls st) = mhi_frame)).
    + destruct (get_MHI cls b1) as [m|e] eqn:Hget;
        cbn [mbind result_bind] in Hloop; [|discriminate].
      inversion Hloop; subst st'; clear Hloop.
      exists f, [], rest, b0, b1. repeat split; trivial.
      * cbn [feed]. now rewrite Hprocess.
      * cbn [mhi]. intros m' Hm'. congruence.
    + apply IH in Hloop; [|exact Hnone].
      destruct Hloop as [[-> Hstop]|(f2 & frames & after & b2 & b & -> & Hstart2 & Hfeed & Hb & Hm)].
      * exists f, [], rest, b0, b1. repeat split; trivial.
        -- cbn [feed]. now rewrite Hprocess.
        -- cbn [mhi]. intros m Hm. congruence.
      * cbn [mhi_builder] in Hstart2. inversion Hstart2; subst b2.
        exists f, (f2 :: frames), after, b0, b. repeat split; trivial.
        cbn [feed] in *. rewrite Hprocess. cbn [mbind result_bind]. exact Hfeed.
  - left. simpl in Hloop. inversion Hloop. split; [reflexivity|congruence].
Qed.

End DriverLoop.

(** C9: when the first read yields no frame the function raises an
    AttributeError ([get_MHI] of [None]) and returns no MHI; whenever it
    returns an MHI, the first read yielded a frame, the builder was
    constructed from that frame, and the MHI is the one of that builder
    after it processed a run of frames from the start of the video. *)
Theorem mhi_needs_a_first_frame {frame kwargs : Type}
    (cls : builder_class frame kwargs) (video : list (read frame))
    (save_frames : gmap Z string) (mhi_frame : option Z)
    (mhi_filename : option string) (kw : kwargs) :
  ((∀ f rest, video ≠ Frame f :: rest) →
     build_motion_history_image cls video save_frames mhi_frame mhi_filename kw
     = Raise AttributeError)
  ∧ (∀ m w,
       build_motion_history_image cls video save_frames mhi_frame mhi_filename kw
       = Ok (m, w) →
       ∃ f frames after b0 b,
         video = Frame f :: (Frame <$> frames) ++ after
         ∧ init cls f kw = Ok b0
         ∧ feed cls b0 (f :: frames) = Ok b
         ∧ get_MHI cls b = Ok m).
Proof.
  split.
  - intros Hnone. unfold build_motion_history_image.
    destruct video as [|[f|] rest]; [reflexivity| |reflexivity].
    now destruct (Hnone f rest).
  - intros m w. unfold build_motion_history_image.
    destruct (read_loop cls video save_frames mhi_frame kw _) as [st'|e] eqn:Hloop;
      cbn [mbind result_bind]; [|discriminate].
    apply read_loop_spec in Hloop; [|reflexivity].
    destruct Hloop as [[-> _]|(f & frames & after & b0 & b & Hvideo & Hstart & Hfeed & Hb & Hm)].
    + cbn [mhi mhi_builder mbind result_bind]. discriminate.
    + cbn [mhi_builder] in Hstart. intros Hbuild.
      exists f, frames, after, b0, b. repeat split; trivial.
      destruct (mhi cls st') as [m'|] eqn:Hmhi.
      * cbn [mbind result_bind] in Hbuild. inversion Hbuild; subst m'. now apply Hm.
      * rewrite Hb in Hbuild.
        destruct (get_MHI cls b) as [m'|e]; cbn [mbind result_bind] in Hbuild;
          [|discriminate].
        now inversion Hbuild.
Qed.

Lemma mhi_needs_a_first_frame_witness :
  build_motion_history_image Ps8.MotionHistoryBuilder [] ∅ None None Sample.params
  = Raise AttributeError
  ∧ build_motion_history_image Ps8.MotionHistoryBuilder Sample.video ∅ None None
      Sample.params
    = Ok ([[Fin 0; Fin (1 # 2)]], [])
  ∧ ∃ f frames after b0 b,
      Sample.video = Frame f :: (Frame <$> frames) ++ after
      ∧ init Ps8.MotionHistoryBuilder f Sample.params = Ok b0
      ∧ feed Ps8.MotionHistoryBuilder b0 (f :: frames) = Ok b
      ∧ get_MHI Ps8.MotionHistoryBuilder b = Ok [[Fin 0; Fin (1 # 2)]].
Proof.
  split; [|split].
  - apply (mhi_needs_a_first_frame Ps8.MotionHistoryBuilder [] ∅ None None Sample.params).
    intros f rest. discriminate.
  - vm_compute. reflexivity.
  - apply (proj2 (mhi_needs_a_first_frame Ps8.MotionHistoryBuilder Sample.video
                    ∅ None None Sample.params) _ []).
    vm_compute. reflexivity.
Defined.

(** * Further properties of [match_features] *)

Section Outcomes.

Context {features : Type}.
Variable cfd : features -> features -> option float64 -> float64.
Implicit Types a_items b_items : list (key * features).

Lemma ballots_in_bounds_predicted a_items b_items (n : Z) :
  ballots_in_bounds cfd a_items b_items n
  ↔ ∀ q b, q ∈ a_items → predicted cfd b_items q = Some b →
      (- n ≤ item0 q.1 - 1 < n) ∧ (- n ≤ item0 b - 1 < n).
Proof.
  split.
  - intros Hb q b Hin Hp.
    exact (Hb q _ Hin (ballot_predicted cfd _ _ _ Hp)).
  - intros Hall q ij Hin Hballot.
    destruct (ballot_Some_inv cfd _ _ _ Hballot) as (b & Hp & ->).
    exact (Hall q b Hin Hp).
Qed.

(** X1: the three ways a call ends.  A negative [n_actions] is a
    ValueError; otherwise the call returns a matrix when every query with
    a best match, and that match, have an action index that numpy accepts
    for an axis of length [n_actions], and is an IndexError as soon as one
    of them has not. *)
Theorem match_features_outcome a_items b_items (n_actions : Z) (scale : float64) :
  (n_actions < 0 →
     match_features cfd a_items b_items n_actions scale = Raise ValueError)
  ∧ (0 ≤ n_actions →
     (∀ q b, q ∈ a_items → predicted cfd b_items q = Some b →
        (- n_actions ≤ item0 q.1 - 1 < n_actions)
        ∧ (- n_actions ≤ item0 b - 1 < n_actions)) →
     ∃ M', match_features cfd a_items b_items n_actions scale = Ok M')
  ∧ (0 ≤ n_actions →
     (∃ q b, q ∈ a_items ∧ predicted cfd b_items q = Some b
             ∧ ¬ ((- n_actions ≤ item0 q.1 - 1 < n_actions)
                  ∧ (- n_actions ≤ item0 b - 1 < n_actions))) →
     match_features cfd a_items b_items n_actions scale = Raise IndexError).
Proof.
  split; [|split].
  - intros Hneg. unfold match_features, tally, Numpy.zeros.
    apply Z.ltb_lt in Hneg. now rewrite Hneg.
  - intros Hn Hall. apply ballots_in_bounds_predicted in Hall.
    destruct (tally_in_bounds cfd _ _ _ Hn Hall) as (M & Ht & _).
    exists (normalize_rows M). unfold match_features. now rewrite Ht.
  - intros Hn (q & b & Hin & Hp & Hbad). unfold match_features.
    rewrite tally_not_in_bounds; [reflexivity|exact Hn|].
    intros Hb. apply Hbad.
    exact (proj1 (ballots_in_bounds_predicted _ _ _) Hb q b Hin Hp).
Qed.

(** X2: a returned matrix is [n_actions] by [n_actions], and each of its
    rows is either [nan] throughout or made of finite shares between 0
    and 1.  No cell is infinite or negative, and no row mixes [nan] with
    numbers. *)
Theorem returned_rows_are_nan_or_distributions a_items b_items (n_actions : Z)
    (scale : float64) (M' : Numpy.ndarray2) :
  match_features cfd a_items b_items n_actions scale = Ok M' →
  length M' = Z.to_nat n_actions
  ∧ Forall (fun row => length row = Z.to_nat n_actions
                       ∧ (Forall (eq NaN) row ∨ Forall is_share row)) M'.
Proof.
  intros Hok. split.
  - destruct (match_features_Ok_inv cfd _ _ _ _ _ Hok) as (_ & _ & M & _ & -> & [Hlen _] & _).
    now rewrite length_fmap.
  - apply Forall_lookup_2. intros i row' Hrow.
    destruct (returned_row cfd _ _ _ _ _ _ _ Hok Hrow) as [Hi ->].
    split.
    + unfold divided_row, count_row. now rewrite !length_fmap, length_seq.
    + set (cs := tallied cfd a_items b_items n_actions i <$> seq 0 (Z.to_nat n_actions)).
      destruct (decide (sum_list cs = 0%nat)) as [Hz|Hp].
      * left. now apply divided_row_zero.
      * right. apply divided_row_positive. lia.
Qed.

End Outcomes.

Lemma match_features_outcome_witness :
  match_features Ps8.compute_feature_difference Sample.clips Sample.clips (-1) one
  = Raise ValueError
  ∧ (∃ M', match_features Ps8.compute_feature_difference
             Sample.stray Sample.stray 2 one = Ok M')
  ∧ match_features Ps8.compute_feature_difference Sample.clips Sample.clips 1 one
    = Raise IndexError.
Proof.
  split; [|split].
  - apply (match_features_outcome Ps8.compute_feature_difference
             Sample.clips Sample.clips (-1) one). lia.
  - apply (match_features_outcome Ps8.compute_feature_difference
             Sample.stray Sample.stray 2 one); [lia|].
    intros q b Hin Hp. unfold Sample.stray in Hin.
    apply list_elem_of_In in Hin. simpl in Hin.
    destruct_or!; try contradiction; subst q; vm_compute in Hp; inversion Hp; subst b;
      unfold item0; cbn [fst]; lia.
  - apply (match_features_outcome Ps8.compute_feature_difference
             Sample.clips Sample.clips 1 one); [lia|].
    exists ((2, 1, 1), Sample.descriptor 10 0), (2, 2, 1).
    split; [apply list_elem_of_In; simpl; tauto|].
    split; [vm_compute; reflexivity|].
    unfold item0. cbn [fst]. lia.
Defined.

Lemma returned_rows_are_nan_or_distributions_witness :
  length [[Fin 1; Fin 0; Fin 0]; [Fin 0; Fin 1; Fin 0]; [NaN; NaN; NaN]] = Z.to_nat 3
  ∧ Forall (fun row => length row = Z.to_nat 3
                       ∧ (Forall (eq NaN) row ∨ Forall is_share row))
      [[Fin 1; Fin 0; Fin 0]; [Fin 0; Fin 1; Fin 0]; [NaN; NaN; NaN]].
Proof.
  apply (returned_rows_are_nan_or_distributions Ps8.compute_feature_difference
           Sample.clips Sample.clips 3 one).
  vm_compute. reflexivity.
Defined.

Section QueryOrder.

Context {features : Type}.
Variable cfd : features -> features -> option float64 -> float64.
Implicit Types a_items b_items : list (key * features).

(** Two square matrices holding the same counts are the same matrix. *)
Lemma counts_determine_matrix (n : nat) (M1 M2 : Numpy.ndarray2) c1 c2 :
  square n M1 → square n M2 → holds_counts n M1 c1 → holds_counts n M2 c2 →
  (∀ i j, c1 i j = c2 i j) → M1 = M2.
Proof.
  intros Hsq1 Hsq2 Hc1 Hc2 Heq. apply list_eq. intros i.
  destruct (decide (i < n)%nat) as [Hi|Hi].
  - rewrite (row_of_counts _ _ _ _ Hsq1 Hc1 Hi), (row_of_counts _ _ _ _ Hsq2 Hc2 Hi).
    do 2 f_equal. apply list_fmap_ext. intros _ j _. apply Heq.
  - destruct Hsq1 as [Hl1 _], Hsq2 as [Hl2 _].
    rewrite !(proj2 (lookup_ge_None _ _)) by lia. reflexivity.
Qed.

Lemma tallied_Permutation a_items a_items' b_items n i j :
  a_items ≡ₚ a_items' →
  tallied cfd a_items b_items n i j = tallied cfd a_items' b_items n i j.
Proof. intros Hperm. unfold tallied. now rewrite Hperm. Qed.

Lemma ballots_in_bounds_Permutation a_items a_items' b_items n :
  a_items ≡ₚ a_items' →
  ballots_in_bounds cfd a_items b_items n →
  ballots_in_bounds cfd a_items' b_items n.
Proof.
  intros Hperm Hb q ij Hin. apply Hb. now rewrite Hperm.
Qed.

(** X3: the order in which the query dict is iterated does not matter:
    two query lists that hold the same entries give the same outcome, the
    same matrix or the same exception. *)
Theorem query_order_is_irrelevant a_items a_items' b_items (n_actions : Z)
    (scale : float64) :
  a_items ≡ₚ a_items' →
  match_features cfd a_items b_items n_actions scale
  = match_features cfd a_items' b_items n_actions scale.
Proof.
  intros Hperm. unfold match_features.
  assert (Ht : tally cfd a_items b_items n_actions = tally cfd a_items' b_items n_actions);
    [|now rewrite Ht].
  destruct (Z.lt_ge_cases n_actions 0) as [Hneg|Hn].
  - unfold tally, Numpy.zeros. apply Z.ltb_lt in Hneg. now rewrite Hneg.
  - destruct (tally cfd a_items b_items n_actions) as [M|e] eqn:Ht1.
    + destruct (tally_Ok_inv cfd _ _ _ _ Ht1) as [_ Hb].
      destruct (tally_in_bounds cfd _ _ _ Hn Hb) as (M1 & HM1 & Hsq1 & Hc1).
      destruct (tally_in_bounds cfd _ _ _ Hn
                  (ballots_in_bounds_Permutation _ _ _ _ Hperm Hb)) as (M2 & HM2 & Hsq2 & Hc2).
      rewrite HM2. rewrite Ht1 in HM1. inversion HM1; subst M1. f_equal.
      eapply counts_determine_matrix; try eassumption.
      intros i j. now apply tallied_Permutation.
    + destruct (tally_raises cfd _ _ _ _ Ht1) as [[Hneg _]|(_ & -> & Hbad)]; [lia|].
      symmetry. apply tally_not_in_bounds; [exact Hn|].
      intros Hb. apply Hbad.
      eapply ballots_in_bounds_Permutation; [symmetry; exact Hperm|exact Hb].
Qed.

Lemma tally_loop_no_match a_items b_items M :
  (∀ q, q ∈ a_items → predicted cfd b_items q = None) →
  tally_loop cfd a_items b_items M = Ok M.
Proof.
  induction a_items as [|q rest IH]; intros Hnone; [reflexivity|].
  cbn [tally_loop]. rewrite tally_query_ballot. unfold ballot.
  rewrite (Hnone q) by (apply elem_of_cons; auto). cbn [mbind option_bind result_bind].
  apply IH. intros q' Hin. apply Hnone. now apply elem_of_cons; right.
Qed.

Lemma sum_zeros (n : nat) : Numpy.sum (replicate n zero) = zero.
Proof.
  unfold Numpy.sum. induction n as [|n IH]; [reflexivity|].
  cbn [replicate foldl]. exact IH.
Qed.

(** X5: when no query obtains a best match - the query dict or the
    gallery is empty, or the gallery holds only the queries' own keys -
    the call returns the [n_actions] by [n_actions] matrix of [nan],
    whatever the action indices of the keys are. *)
Theorem no_match_gives_nan_matrix a_items b_items (n_actions : Z) (scale : float64) :
  0 ≤ n_actions →
  ((∀ q, q ∈ a_items → predicted cfd b_items q = None) →
     match_features cfd a_items b_items n_actions scale
     = Ok (replicate (Z.to_nat n_actions) (replicate (Z.to_nat n_actions) NaN)))
  ∧ match_features cfd [] b_items n_actions scale
    = Ok (replicate (Z.to_nat n_actions) (replicate (Z.to_nat n_actions) NaN))
  ∧ match_features cfd a_items [] n_actions scale
    = Ok (replicate (Z.to_nat n_actions) (replicate (Z.to_nat n_actions) NaN)).
Proof.
  intros Hn.
  assert (Hgen : ∀ a b, (∀ q, q ∈ a → predicted cfd b q = None) →
     match_features cfd a b n_actions scale
     = Ok (replicate (Z.to_nat n_actions) (replicate (Z.to_nat n_actions) NaN))).
  { intros a b Hnone. unfold match_features, tally, Numpy.zeros.
    destruct (Z.ltb_spec n_actions 0); [lia|]. cbn [mbind result_bind].
    rewrite (tally_loop_no_match _ _ _ Hnone). cbn [mbind result_bind]. f_equal.
    rewrite normalize_rows_fmap, fmap_replicate. f_equal.
    unfold divided_row. now rewrite sum_zeros, fmap_replicate. }
  split; [apply Hgen|]. split; apply Hgen.
  - intros q Hin. inversion Hin.
  - intros q _. reflexivity.
Qed.

End QueryOrder.

Lemma query_order_is_irrelevant_witness :
  match_features Ps8.compute_feature_difference Sample.mixed Sample.mixed 3 one
  = match_features Ps8.compute_feature_difference (reverse Sample.mixed) Sample.mixed 3 one.
Proof.
  apply (query_order_is_irrelevant Ps8.compute_feature_difference).
  symmetry. apply reverse_Permutation.
Defined.

Lemma no_match_gives_nan_matrix_witness :
  match_features Ps8.compute_feature_difference
    [((7, 1, 1), Sample.descriptor 0 0)] [((7, 1, 1), Sample.descriptor 0 0)] 2 one
  = Ok [[NaN; NaN]; [NaN; NaN]].
Proof.
  destruct (no_match_gives_nan_matrix Ps8.compute_feature_difference
              [((7, 1, 1), Sample.descriptor 0 0)] [((7, 1, 1), Sample.descriptor 0 0)]
              2 one) as (Hnone & _ & _).
  - lia.
  - apply Hnone. intros q Hin. apply list_elem_of_In in Hin. simpl in Hin.
    destruct Hin as [<-|[]]. vm_compute. reflexivity.
Defined.

Section Conservation.

Context {features : Type}.
Variable cfd : features -> features -> option float64 -> float64.
Implicit Types a_items b_items : list (key * features).

Lemma sum_list_fmap_add {A : Type} (f g : A -> nat) (l : list A) :
  sum_list ((fun x => f x + g x)%nat <$> l)
  = (sum_list (f <$> l) + sum_list (g <$> l))%nat.
Proof.
  induction l as [|x l IH]; [reflexivity|].
  cbn [fmap list_fmap sum_list sum_list_with] in *. unfold id in *. lia.
Qed.

Lemma sum_indicator (c s n : nat) :
  sum_list ((fun j => if decide (c = j) then 1 else 0)%nat <$> seq s n)
  = if decide (s ≤ c < s + n)%nat then 1%nat else 0%nat.
Proof.
  revert s. induction n as [|n IH]; intros s.
  - simpl. destruct (decide _); [lia|reflexivity].
  - cbn [seq fmap list_fmap sum_list sum_list_with]. unfold id at 1.
    change (sum_list_with id (list_fmap nat nat ?f ?l)) with (sum_list (f <$> l)).
    rewrite IH.
    destruct (decide (c = s)), (decide (S s ≤ c < S s + n)%nat),
      (decide (s ≤ c < s + S n)%nat); lia.
Qed.

(** The counts of one query over the whole matrix: one if it has a best
    match, none otherwise. *)
Lemma one_query_one_count b_items (n : nat) (q : key * features) :
  (∀ ij, ballot cfd b_items q = Some ij →
     in_bounds (Z.of_nat n) ij.1 ∧ in_bounds (Z.of_nat n) ij.2) →
  sum_list ((fun i => sum_list ((fun j =>
       if decide (lands cfd b_items (Z.of_nat n) i j q) then 1 else 0)%nat <$> seq 0 n))
     <$> seq 0 n)
  = if decide (is_Some (predicted cfd b_items q)) then 1%nat else 0%nat.
Proof.
  intros Hb. destruct (ballot cfd b_items q) as [ij|] eqn:Hballot.
  - destruct (ballot_Some_inv cfd _ _ _ Hballot) as (b & Hp & _).
    rewrite decide_True by (rewrite Hp; eauto).
    destruct (Hb ij eq_refl) as [Hi Hj].
    apply wrap_lt in Hi, Hj.
    erewrite list_fmap_ext with (g := fun i => if decide (wrap (Z.of_nat n) ij.1 = i)
                                               then 1%nat else 0%nat).
    + rewrite sum_indicator. rewrite decide_True by lia. reflexivity.
    + intros _ i _. simpl.
      destruct (decide (wrap (Z.of_nat n) ij.1 = i)) as [Hr|Hr].
      * erewrite list_fmap_ext with (g := fun j => if decide (wrap (Z.of_nat n) ij.2 = j)
                                                   then 1%nat else 0%nat).
        -- rewrite sum_indicator. rewrite decide_True by lia. reflexivity.
        -- intros _ j _. simpl.
           destruct (decide (lands _ _ _ _ _ _)) as [Hl|Hl],
             (decide (wrap (Z.of_nat n) ij.2 = j)) as [Hc|Hc]; trivial;
             rewrite (lands_ballot cfd _ _ _ _ _ _ Hballot) in Hl; tauto.
      * apply sum_list_fmap_zero. intros j.
        rewrite decide_False; [reflexivity|].
        rewrite (lands_ballot cfd _ _ _ _ _ _ Hballot). tauto.
  - assert (Hp : predicted cfd b_items q = None).
    { unfold ballot in Hballot. now destruct (predicted cfd b_items q). }
    rewrite decide_False by (rewrite Hp; intros [? ?]; discriminate).
    apply sum_list_fmap_zero. intros i. apply sum_list_fmap_zero. intros j.
    rewrite decide_False; [reflexivity|]. now apply lands_no_ballot.
Qed.

Lemma tallied_total a_items b_items (n : nat) :
  ballots_in_bounds cfd a_items b_items (Z.of_nat n) →
  sum_list ((fun i => sum_list (tallied cfd a_items b_items (Z.of_nat n) i <$> seq 0 n))
              <$> seq 0 n)
  = length (filter (fun q => is_Some (predicted cfd b_items q)) a_items).
Proof.
  induction a_items as [|q rest IH]; intros Hb.
  - apply sum_list_fmap_zero. intros i. now apply sum_list_fmap_zero.
  - erewrite list_fmap_ext with
      (g := fun i => (sum_list ((fun j =>
                if decide (lands cfd b_items (Z.of_nat n) i j q) then 1 else 0)%nat <$> seq 0 n)
              + sum_list (tallied cfd rest b_items (Z.of_nat n) i <$> seq 0 n))%nat).
    + rewrite sum_list_fmap_add, one_query_one_count, IH.
      * rewrite filter_cons. destruct (decide _); reflexivity.
      * intros q' ij Hin. apply Hb. now apply elem_of_cons; right.
      * intros ij. apply Hb. apply elem_of_cons. auto.
    + intros _ i _. simpl. rewrite <- sum_list_fmap_add.
      f_equal. apply list_fmap_ext. intros _ j _. apply tallied_cons.
Qed.

(** X4: before normalization, the cells of the matrix add up to the
    number of queries that obtained a best match: each of them is counted
    once and nothing else is. *)
Theorem counts_add_up_to_matched_queries a_items b_items (n_actions : Z)
    (M : Numpy.ndarray2) :
  tally cfd a_items b_items n_actions = Ok M →
  Numpy.sum (Numpy.sum_axis1 M)
  = Fin (inject_Z (Z.of_nat
      (length (filter (fun q => is_Some (predicted cfd b_items q)) a_items)))).
Proof.
  intros Ht.
  destruct (tally_Ok_inv cfd _ _ _ _ Ht) as [Hn Hb].
  destruct (tally_in_bounds cfd _ _ _ Hn Hb) as (M1 & HM1 & Hsq & Hc).
  rewrite Ht in HM1. inversion HM1; subst M1. clear HM1.
  set (N := Z.to_nat n_actions) in *.
  assert (HM : M = (fun i => count_row (tallied cfd a_items b_items n_actions i <$> seq 0 N))
                   <$> seq 0 N).
  { apply list_eq. intros i. rewrite list_lookup_fmap.
    destruct (decide (i < N)%nat) as [Hi|Hi].
    - rewrite (row_of_counts _ _ _ _ Hsq Hc Hi). now rewrite lookup_seq_lt.
    - rewrite lookup_seq_ge by lia. destruct Hsq as [Hlen _].
      apply lookup_ge_None. lia. }
  rewrite HM. unfold Numpy.sum_axis1. rewrite <- list_fmap_compose.
  erewrite list_fmap_ext with
    (g := (fun c => Fin (inject_Z (Z.of_nat c)))
          ∘ (fun i => sum_list (tallied cfd a_items b_items n_actions i <$> seq 0 N))).
  2: { intros _ i _. simpl. apply sum_count_row. }
  rewrite list_fmap_compose.
  change (Numpy.sum (count_row ((fun i => sum_list
            (tallied cfd a_items b_items n_actions i <$> seq 0 N)) <$> seq 0 N))
          = Fin (inject_Z (Z.of_nat (length
              (filter (fun q => is_Some (predicted cfd b_items q)) a_items))))).
  rewrite sum_count_row. do 3 f_equal.
  rewrite <- (Z2Nat.id n_actions Hn) in Hb |- *. fold N.
  now apply tallied_total.
Qed.

(** Whatever lies below some bound lies below [inf]. *)
Lemma flt_lt_inf (x y : float64) : flt x y = true → flt x PosInf = true.
Proof. destruct x, y; simpl; congruence. Qed.

Lemma scan_unreachable (a_key : key) (a_features : features) b_items
    min_diff best_match :
  scan_gallery cfd a_key a_features b_items min_diff best_match
  = scan_gallery cfd a_key a_features
      (filter (fun e => flt (cfd a_features e.2 None) PosInf = true) b_items)
      min_diff best_match.
Proof.
  revert min_diff best_match.
  induction b_items as [|[b_key b_features] rest IH]; intros min_diff best_match.
  - reflexivity.
  - rewrite filter_cons. cbn [snd].
    destruct (decide (flt (cfd a_features b_features None) PosInf = true)) as [Hreach|Hfar].
    + destruct (decide (a_key = b_key)) as [->|Hne].
      * rewrite !scan_own_key. apply IH.
      * rewrite !scan_other_key by exact Hne. destruct (flt _ min_diff); apply IH.
    + destruct (decide (a_key = b_key)) as [->|Hne].
      * rewrite scan_own_key. apply IH.
      * rewrite scan_other_key by exact Hne.
        destruct (flt (cfd a_features b_features None) min_diff) eqn:Hlt; [|apply IH].
        now apply flt_lt_inf in Hlt.
Qed.

(** X6: a gallery entry whose distance to the query is [nan] or [inf]
    plays no part: the query gets the best match, at the distance, that it
    gets from the gallery without such entries, and so does the loop
    body. *)
Theorem unreachable_candidates_are_ignored (a_key : key) (a_features : features)
    b_items M :
  nearest cfd a_key a_features b_items
  = nearest cfd a_key a_features
      (filter (fun e => flt (cfd a_features e.2 None) PosInf = true) b_items)
  ∧ tally_query cfd b_items M (a_key, a_features)
    = tally_query cfd
        (filter (fun e => flt (cfd a_features e.2 None) PosInf = true) b_items)
        M (a_key, a_features).
Proof.
  assert (Hn : nearest cfd a_key a_features b_items
               = nearest cfd a_key a_features
                   (filter (fun e => flt (cfd a_features e.2 None) PosInf = true) b_items))
    by apply scan_unreachable.
  split; [exact Hn|]. unfold tally_query. now rewrite <- Hn.
Qed.

End Conservation.

Lemma counts_add_up_to_matched_queries_witness :
  Numpy.sum (Numpy.sum_axis1 [[Fin 0; Fin 1]; [Fin 2; Fin 0]])
  = Fin (inject_Z (Z.of_nat
      (length (filter (fun q => is_Some (predicted Ps8.compute_feature_difference
                                           Sample.stray q)) Sample.stray)))).
Proof.
  apply (counts_add_up_to_matched_queries Ps8.compute_feature_difference
           Sample.stray Sample.stray 2).
  vm_compute. reflexivity.
Defined.

(** * Further properties of [build_motion_history_image] *)

Section DriverRuns.

Context {frame kwargs : Type}.
Variable cls : builder_class frame kwargs.
Implicit Types (video : list (read frame)) (st : loop_state cls).

Lemma read_loop_interrupt (pre rest : list (read frame)) save_frames mhi_frame kw st :
  read_loop cls (pre ++ KeyboardInterrupt :: rest) save_frames mhi_frame kw st
  = read_loop cls pre save_frames mhi_frame kw st.
Proof.
  revert st. induction pre as [|[f|] pre IH]; intros st; try reflexivity.
  cbn [app read_loop].
  destruct (match mhi_builder cls st with
            | None => init cls f kw
            | Some b => Ok b
            end) as [b0|e]; cbn [mbind result_bind]; [|reflexivity].
  destruct (process cls b0 f) as [[motion_image b1]|e]; cbn [mbind result_bind];
    [|reflexivity].
  destruct (bool_decide _); [reflexivity|apply IH].
Qed.

(** X7: Ctrl+C ends the loop as the end of the video does: the call
    returns, raises and writes what it would on the reads that came
    before the interrupt. *)
Theorem interrupt_ends_like_exhaustion (pre rest : list (read frame))
    save_frames mhi_frame mhi_filename kw :
  build_motion_history_image cls (pre ++ KeyboardInterrupt :: rest)
    save_frames mhi_frame mhi_filename kw
  = build_motion_history_image cls pre save_frames mhi_frame mhi_filename kw.
Proof. unfold build_motion_history_image. now rewrite read_loop_interrupt. Qed.

Lemma read_loop_stop (frames : list frame) (after : list (read frame))
    save_frames (k : Z) kw st :
  frame_num cls st ≤ k →
  Z.of_nat (length frames) = k - frame_num cls st + 1 →
  read_loop cls ((Frame <$> frames) ++ after) save_frames (Some k) kw st
  = read_loop cls (Frame <$> frames) save_frames (Some k) kw st.
Proof.
  revert st. induction frames as [|f frames IH]; intros st Hle Hlen.
  - simpl in Hlen. lia.
  - cbn [fmap list_fmap app read_loop].
    destruct (match mhi_builder cls st with
              | None => init cls f kw
              | Some b => Ok b
              end) as [b0|e]; cbn [mbind result_bind]; [|reflexivity].
    destruct (process cls b0 f) as [[motion_image b1]|e]; cbn [mbind result_bind];
      [|reflexivity].
    case_bool_decide; [reflexivity|].
    apply IH; cbn [frame_num].
    + assert (frame_num cls st ≠ k) by congruence. lia.
    + cbn [length] in Hlen. lia.
Qed.

(** X8: with [mhi_frame = k], nothing is read after frame number [k]
    (frames are numbered from 0): whatever follows the first [k + 1]
    frames has no effect on the outcome. *)
Theorem nothing_is_read_after_mhi_frame (frames : list frame)
    (after : list (read frame)) save_frames (k : Z) mhi_filename kw :
  0 ≤ k → Z.of_nat (length frames) = k + 1 →
  build_motion_history_image cls ((Frame <$> frames) ++ after)
    save_frames (Some k) mhi_filename kw
  = build_motion_history_image cls (Frame <$> frames)
      save_frames (Some k) mhi_filename kw.
Proof.
  intros Hk Hlen. unfold build_motion_history_image.
  rewrite read_loop_stop; [reflexivity|cbn [frame_num]; lia..].
Qed.

Lemma read_loop_unreached video save_frames (k : Z) kw st :
  k < frame_num cls st ∨ frame_num cls st + Z.of_nat (length video) ≤ k →
  read_loop cls video save_frames (Some k) kw st
  = read_loop cls video save_frames None kw st.
Proof.
  revert st. induction video as [|[f|] video IH]; intros st Hk; try reflexivity.
  cbn [read_loop].
  destruct (match mhi_builder cls st with
            | None => init cls f kw
            | Some b => Ok b
            end) as [b0|e]; cbn [mbind result_bind]; [|reflexivity].
  destruct (process cls b0 f) as [[motion_image b1]|e]; cbn [mbind result_bind];
    [|reflexivity].
  rewrite (bool_decide_eq_false_2 (Some (frame_num cls st) = None)) by discriminate.
  rewrite bool_decide_eq_false_2.
  - apply IH. cbn [frame_num]. cbn [length] in Hk. lia.
  - intros Heq. inversion Heq. cbn [length] in Hk. lia.
Qed.

(** X9: an [mhi_frame] that no frame number reaches - a negative one, or
    one not below the number of reads - acts as no [mhi_frame] at all. *)
Theorem unreached_mhi_frame_is_none video save_frames (k : Z) mhi_filename kw :
  k < 0 ∨ Z.of_nat (length video) ≤ k →
  build_motion_history_image cls video save_frames (Some k) mhi_filename kw
  = build_motion_history_image cls video save_frames None mhi_filename kw.
Proof.
  intros Hk. unfold build_motion_history_image.
  rewrite read_loop_unreached; [reflexivity|cbn [frame_num]; lia].
Qed.

End DriverRuns.

Lemma nothing_is_read_after_mhi_frame_witness :
  build_motion_history_image Ps8.MotionHistoryBuilder
    ((Frame <$> [[[0; 0]]; [[0; 50]]]) ++ [Frame [[0; 50]]]) ∅ (Some 1) None Sample.params
  = build_motion_history_image Ps8.MotionHistoryBuilder
      (Frame <$> [[[0; 0]]; [[0; 50]]]) ∅ (Some 1) None Sample.params.
Proof.
  apply (nothing_is_read_after_mhi_frame Ps8.MotionHistoryBuilder); [lia|reflexivity].
Defined.

Lemma unreached_mhi_frame_is_none_witness :
  build_motion_history_image Ps8.MotionHistoryBuilder Sample.video ∅ (Some 3) None
    Sample.params
  = build_motion_history_image Ps8.MotionHistoryBuilder Sample.video ∅ None None
      Sample.params.
Proof.
  apply (unreached_mhi_frame_is_none Ps8.MotionHistoryBuilder).
  right. simpl. lia.
Defined.

Section WholeVideo.

Context {frame kwargs : Type}.
Variable cls : builder_class frame kwargs.
Implicit Types st : loop_state cls.

Lemma omap_seqZ_S {A : Type} (g : Z -> option A) (m : Z) (n : nat) :
  omap g (seqZ m (Z.of_nat (S n)))
  = match g m with Some x => [x] | None => [] end
    ++ omap g (seqZ (m + 1) (Z.of_nat n)).
Proof.
  rewrite seqZ_cons by lia. cbn [omap list_omap].
  replace (Z.pred (Z.of_nat (S n))) with (Z.of_nat n) by lia.
  replace (Z.succ m) with (m + 1) by lia.
  now destruct (g m).
Qed.

(** A run over frames during which [mhi_frame] comes no sooner than the
    last of them: every frame is processed, by the builder that served
    the first one; the names of the images saved on the way are those
    that [save_frames] gives to the frame numbers met. *)
Lemma read_loop_run (f : frame) (frames : list frame) save_frames mhi_frame kw st r :
  mhi cls st = None →
  (mhi_frame = None
   ∨ ∃ k, mhi_frame = Some k ∧ frame_num cls st + Z.of_nat (length frames) ≤ k) →
  read_loop cls (Frame <$> (f :: frames)) save_frames mhi_frame kw st = r →
  match r with
  | Ok st' =>
      ∃ b0 b', match mhi_builder cls st with
               | None => init cls f kw
               | Some b => Ok b
               end = Ok b0
               ∧ feed cls b0 (f :: frames) = Ok b'
               ∧ mhi_builder cls st' = Some b'
               ∧ (∀ m, mhi cls st' = Some m → get_MHI cls b' = Ok m)
               ∧ (saved cls st').*1
                 = (saved cls st).*1
                   ++ omap (fun i => save_frames !! i)
                        (seqZ (frame_num cls st) (Z.of_nat (S (length frames))))
  | Raise e =>
      match mhi_builder cls st with
      | None => init cls f kw
      | Some b => Ok b
      end = Raise e
      ∨ ∃ b0, match mhi_builder cls st with
              | None => init cls f kw
              | Some b => Ok b
              end = Ok b0
              ∧ (feed cls b0 (f :: frames) = Raise e
                 ∨ ∃ b', feed cls b0 (f :: frames) = Ok b'
                         ∧ get_MHI cls b' = Raise e)
  end.
Proof.
  revert f st r. induction frames as [|f2 frames IH]; intros f st r Hnone Hmf Hloop.
  - (* the last frame *)
    cbn [fmap list_fmap read_loop] in Hloop.
    destruct (match mhi_builder cls st with
              | None => init cls f kw
              | Some b => Ok b
              end) as [b0|e] eqn:Hstart; cbn [mbind result_bind] in Hloop.
    2: { subst r. now left. }
    destruct (process cls b0 f) as [[motion_image b1]|e] eqn:Hprocess;
      cbn [mbind result_bind] in Hloop.
    2: { subst r. right. exists b0. split; [reflexivity|]. left.
         cbn [feed]. now rewrite Hprocess. }
    assert (Hfeed : feed cls b0 [f] = Ok b1) by (cbn [feed]; now rewrite Hprocess).
    assert (Hnames : (match save_frames !! frame_num cls st with
                      | Some filename => saved cls st ++ [(filename, motion_image)]
                      | None => saved cls st
                      end).*1
                     = (saved cls st).*1
                       ++ omap (fun i => save_frames !! i)
                            (seqZ (frame_num cls st) (Z.of_nat 1))).
    { rewrite omap_seqZ_S. simpl.
      destruct (save_frames !! frame_num cls st).
      - now rewrite fmap_app.
      - now rewrite app_nil_r. }
    case_bool_decide.
    + destruct (get_MHI cls b1) as [m|e] eqn:Hget; cbn [mbind result_bind] in Hloop; subst r.
      * exists b0, b1. split; [reflexivity|]. split; [exact Hfeed|].
        split; [reflexivity|]. split; [|exact Hnames].
        cbn [mhi]. intros m' Hm'. congruence.
      * right. exists b0. split; [reflexivity|]. right. exists b1. auto.
    + cbn [read_loop] in Hloop. subst r.
      exists b0, b1. split; [reflexivity|]. split; [exact Hfeed|].
      split; [reflexivity|]. split; [|exact Hnames].
      cbn [mhi]. intros m Hm. congruence.
  - (* a frame with more to come *)
    cbn [fmap list_fmap read_loop] in Hloop.
    destruct (match mhi_builder cls st with
              | None => init cls f kw
              | Some b => Ok b
              end) as [b0|e] eqn:Hstart; cbn [mbind result_bind] in Hloop.
    2: { subst r. now left. }
    destruct (process cls b0 f) as [[motion_image b1]|e] eqn:Hprocess;
      cbn [mbind result_bind] in Hloop.
    2: { subst r. right. exists b0. split; [reflexivity|]. left.
         cbn [feed]. now rewrite Hprocess. }
    assert (Hstep : ∀ x, feed cls b0 (f :: f2 :: frames) = x ↔ feed cls b1 (f2 :: frames) = x).
    { intros x. cbn [feed]. now rewrite Hprocess. }
    case_bool_decide as Hstop.
    { destruct Hmf as [->|(k & -> & Hk)]; [discriminate|].
      inversion Hstop. cbn [length] in Hk. lia. }
    apply (IH f2) in Hloop; cbn [mhi mhi_builder frame_num saved] in *; trivial.
    2: { destruct Hmf as [->|(k & -> & Hk)]; [now left|right].
         exists k. split; [reflexivity|]. cbn [length] in Hk. lia. }
    destruct r as [st'|e].
    + destruct Hloop as (b1' & b' & Hb1 & Hfeed & Hb & Hm & Hsaved).
      inversion Hb1; subst b1'.
      exists b0, b'. split; [reflexivity|]. split; [now apply Hstep|].
      split; [exact Hb|]. split; [exact Hm|].
      rewrite Hsaved. rewrite (omap_seqZ_S _ _ (S (length frames))).
      rewrite app_assoc. f_equal.
      destruct (save_frames !! frame_num cls st).
      * now rewrite fmap_app.
      * now rewrite app_nil_r.
    + destruct Hloop as [Hb1|(b1' & Hb1 & Hfeed)]; [discriminate|].
      inversion Hb1; subst b1'.
      right. exists b0. split; [reflexivity|].
      destruct Hfeed as [Hfeed|(b' & Hfeed & Hget)].
      * left. now apply Hstep.
      * right. exists b'. split; [now apply Hstep|exact Hget].
Qed.

(** X10: when [mhi_frame] is absent, or is not below the number of the
    last frame, every frame of the video is processed: the MHI returned
    is the one of the builder made from the first frame after it was fed
    all frames, the first included, and the call raises what making,
    feeding or asking that builder raises. *)
Theorem whole_video_is_processed (f : frame) (frames : list frame)
    save_frames mhi_frame mhi_filename kw :
  (mhi_frame = None ∨ ∃ k, mhi_frame = Some k ∧ Z.of_nat (length frames) ≤ k) →
  build_motion_history_image cls (Frame <$> (f :: frames))
    save_frames mhi_frame mhi_filename kw ≫= (fun r => Ok r.1)
  = b0 ← init cls f kw; b ← feed cls b0 (f :: frames); get_MHI cls b.
Proof.
  intros Hmf. unfold build_motion_history_image.
  pose proof (read_loop_run f frames save_frames mhi_frame kw
                {| mhi_builder := None; mhi := None; frame_num := 0; saved := [] |}
                _ eq_refl Hmf eq_refl) as Hrun.
  cbn [mhi_builder frame_num saved] in Hrun.
  destruct (read_loop cls _ save_frames mhi_frame kw _) as [st'|e].
  - destruct Hrun as (b0 & b' & -> & Hfeed & Hb & Hm & _).
    cbn [mbind result_bind]. cbn [feed] in Hfeed |- *. rewrite Hfeed.
    destruct (mhi cls st') as [m|] eqn:Hmhi.
    + cbn [mbind result_bind fst]. now rewrite (Hm m eq_refl).
    + rewrite Hb. cbn [mbind result_bind]. now destruct (get_MHI cls b').
  - cbn [mbind result_bind].
    destruct Hrun as [->|(b0 & -> & [Hfeed|(b' & Hfeed & Hget)])]; trivial;
      cbn [mbind result_bind]; cbn [feed] in Hfeed |- *; rewrite Hfeed; trivial.
    cbn [mbind result_bind]. now rewrite Hget.
Qed.

(** X11: in such a run the files written are, in this order, one per
    frame number that [save_frames] names - from 0 to the number of the
    last frame, any other key of [save_frames] being ignored - and then
    the MHI under [mhi_filename] when that is given; the MHI written is
    the MHI returned. *)
Theorem saved_files_follow_frame_numbers (f : frame) (frames : list frame)
    save_frames mhi_frame mhi_filename kw m w :
  (mhi_frame = None ∨ ∃ k, mhi_frame = Some k ∧ Z.of_nat (length frames) ≤ k) →
  build_motion_history_image cls (Frame <$> (f :: frames))
    save_frames mhi_frame mhi_filename kw = Ok (m, w) →
  w.*1 = omap (fun i => save_frames !! i) (seqZ 0 (Z.of_nat (S (length frames))))
         ++ option_list mhi_filename
  ∧ (∀ filename, mhi_filename = Some filename → last w = Some (filename, m)).
Proof.
  intros Hmf. unfold build_motion_history_image.
  pose proof (read_loop_run f frames save_frames mhi_frame kw
                {| mhi_builder := None; mhi := None; frame_num := 0; saved := [] |}
                _ eq_refl Hmf eq_refl) as Hrun.
  cbn [mhi_builder frame_num saved] in Hrun.
  destruct (read_loop cls _ save_frames mhi_frame kw _) as [st'|e];
    cbn [mbind result_bind]; [|discriminate].
  destruct Hrun as (b0 & b' & _ & _ & _ & _ & Hsaved).
  destruct (match mhi cls st' with
            | Some m0 => Ok m0
            | None => match mhi_builder cls st' with
                      | Some b => get_MHI cls b
                      | None => Raise AttributeError
                      end
            end) as [m'|e]; cbn [mbind result_bind]; [|discriminate].
  intros Hok. inversion Hok; subst m' w. clear Hok. split.
  - destruct mhi_filename as [filename|]; cbn [option_list].
    + rewrite fmap_app, Hsaved. reflexivity.
    + rewrite app_nil_r. exact Hsaved.
  - intros filename ->. apply last_snoc.
Qed.

End WholeVideo.

Lemma whole_video_is_processed_witness :
  build_motion_history_image Ps8.MotionHistoryBuilder
    (Frame <$> [[[0; 0]]; [[0; 50]]; [[0; 50]]]) ∅ None None Sample.params
    ≫= (fun r => Ok r.1)
  = b0 ← init Ps8.MotionHistoryBuilder [[0; 0]] Sample.params;
    b ← feed Ps8.MotionHistoryBuilder b0 [[[0; 0]]; [[0; 50]]; [[0; 50]]];
    get_MHI Ps8.MotionHistoryBuilder b.
Proof.
  apply (whole_video_is_processed Ps8.MotionHistoryBuilder). now left.
Defined.

Lemma saved_files_follow_frame_numbers_witness :
  ([("a.png", [[Fin 0; Fin 0]]); ("c.png", [[Fin 0; Fin (1 # 2)]]);
    ("mhi.png", [[Fin 0; Fin (1 # 2)]])] : list (string * Numpy.ndarray2)).*1
  = omap (fun i => ({[0 := "a.png"; 2 := "c.png"; 7 := "h.png"]} : gmap Z string) !! i)
      (seqZ 0 (Z.of_nat 3))
    ++ option_list (Some "mhi.png")
  ∧ (∀ filename, Some "mhi.png" = Some filename →
       last [("a.png", [[Fin 0; Fin 0]]); ("c.png", [[Fin 0; Fin (1 # 2)]]);
             ("mhi.png", [[Fin 0; Fin (1 # 2)]])]
       = Some (filename, [[Fin 0; Fin (1 # 2)]])).
Proof.
  apply (saved_files_follow_frame_numbers Ps8.MotionHistoryBuilder
           [[0; 0]] [[[0; 50]]; [[0; 50]]]
           {[0 := "a.png"; 2 := "c.png"; 7 := "h.png"]} None (Some "mhi.png")
           Sample.params).
  - now left.
  - vm_compute. reflexivity.
Defined.

(** * Further properties of [get_cs_moment_features] *)

Lemma mapM_result_Ok {A B : Type} (f : A -> result B) (l : list A) (ys : list B) :
  mapM f l = Ok ys → Forall2 (fun x y => f x = Ok y) l ys.
Proof.
  revert ys. induction l as [|x l IH]; intros ys Hok.
  - inversion Hok. constructor.
  - cbn [mapM] in Hok.
    destruct (f x) as [y|e] eqn:Hx; cbn [mbind result_bind] in Hok; [|discriminate].
    destruct (mapM f l) as [ys'|e]; cbn [mbind result_bind] in Hok; [|discriminate].
    inversion Hok. constructor; [exact Hx|]. now apply IH.
Qed.


Lemma length_bind_const {A B : Type} (f : A -> list B) (l : list A) (c : nat) :
  (∀ x, length (f x) = c) → length (l ≫= f) = (length l * c)%nat.
Proof.
  intros Hf. induction l as [|x l IH]; [reflexivity|].
  cbn [mbind list_bind]. rewrite length_app, Hf.
  change (length (l ≫= f)) with (length (mbind f l)) in IH.
  cbn [mbind] in IH. rewrite IH. simpl. lia.
Qed.


Section FeatureTables.

Context {frame : Type}.
Variable MotionHistoryBuilder : builder_class frame (gmap string Z).
Variable get_central_moments get_scaled_moments : image -> list float64.
Variable open_video : key -> list (read frame).

Lemma clip_keys_spec (n_actions n_participants n_trials : Z) (k : key) :
  k ∈ clip_keys n_actions n_participants n_trials
  ↔ (1 ≤ k.1.1 ≤ n_actions) ∧ (1 ≤ k.1.2 ≤ n_participants) ∧ (1 ≤ k.2 ≤ n_trials).
Proof.
  unfold clip_keys. destruct k as [[a p] t]. cbn [fst snd]. split.
  - intros Hin.
    apply list_elem_of_bind in Hin as (a' & Hin & Ha).
    apply list_elem_of_bind in Hin as (p' & Hin & Hp).
    apply list_elem_of_bind in Hin as (t' & Hin & Ht).
    apply list_elem_of_singleton in Hin. inversion Hin; subst.
    apply elem_of_seqZ in Ha, Hp, Ht. lia.
  - intros (Ha & Hp & Ht).
    apply list_elem_of_bind. exists a. split; [|apply elem_of_seqZ; lia].
    apply list_elem_of_bind. exists p. split; [|apply elem_of_seqZ; lia].
    apply list_elem_of_bind. exists t. split; [|apply elem_of_seqZ; lia].
    apply list_elem_of_singleton. reflexivity.
Qed.

Lemma clip_keys_NoDup (n_actions n_participants n_trials : Z) :
  NoDup (clip_keys n_actions n_participants n_trials).
Proof.
  unfold clip_keys.
  apply NoDup_bind; [| |apply NoDup_seqZ].
  - intros a1 a2 k _ _ H1 H2.
    apply list_elem_of_bind in H1 as (p1 & H1 & _).
    apply list_elem_of_bind in H1 as (t1 & H1 & _).
    apply list_elem_of_bind in H2 as (p2 & H2 & _).
    apply list_elem_of_bind in H2 as (t2 & H2 & _).
    apply list_elem_of_singleton in H1, H2. congruence.
  - intros a _. apply NoDup_bind; [| |apply NoDup_seqZ].
    + intros p1 p2 k _ _ H1 H2.
      apply list_elem_of_bind in H1 as (t1 & H1 & _).
      apply list_elem_of_bind in H2 as (t2 & H2 & _).
      apply list_elem_of_singleton in H1, H2. congruence.
    + intros p _. apply NoDup_bind; [| |apply NoDup_seqZ].
      * intros t1 t2 k _ _ H1 H2.
        apply list_elem_of_singleton in H1, H2. congruence.
      * intros t _. apply NoDup_singleton.
Qed.

Lemma clip_keys_length (n_actions n_participants n_trials : Z) :
  length (clip_keys n_actions n_participants n_trials)
  = (Z.to_nat n_actions * (Z.to_nat n_participants * Z.to_nat n_trials))%nat.
Proof.
  unfold clip_keys.
  rewrite (length_bind_const _ _ (Z.to_nat n_participants * Z.to_nat n_trials)).
  - now rewrite length_seqZ.
  - intros a. rewrite (length_bind_const _ _ (Z.to_nat n_trials)).
    + now rewrite length_seqZ.
    + intros p. rewrite (length_bind_const _ _ 1).
      * rewrite length_seqZ. lia.
      * reflexivity.
Qed.

(** The entries behind a returned pair of dicts: one per clip key, with
    the features of the MHI built for that clip. *)
Lemma features_of_Ok_inv n_actions n_participants n_trials default_params
    custom_params central scaled :
  (get_cs_moment_features MotionHistoryBuilder get_central_moments
     get_scaled_moments open_video) n_actions n_participants n_trials default_params custom_params
  = Ok (central, scaled) →
  ∃ entries,
    Forall2 (fun k e => ∃ mhi, (clip_mhi MotionHistoryBuilder open_video) default_params custom_params k = Ok mhi
                               ∧ e = (k, clip_features get_central_moments
                                           get_scaled_moments mhi))
      (clip_keys n_actions n_participants n_trials) entries
    ∧ central = (fun e => (e.1, e.2.1)) <$> entries
    ∧ scaled = (fun e => (e.1, e.2.2)) <$> entries.
Proof.
  unfold get_cs_moment_features. intros Hok.
  destruct (mapM _ (clip_keys n_actions n_participants n_trials)) as [entries|e] eqn:Hm;
    cbn [mbind result_bind] in Hok; [|discriminate].
  inversion Hok; subst. exists entries. split; [|auto].
  apply mapM_result_Ok in Hm. eapply Forall2_impl; [exact Hm|].
  intros k e He. cbn beta in He.
  destruct ((clip_mhi MotionHistoryBuilder open_video) default_params custom_params k) as [mhi|e'];
    cbn [mbind result_bind] in He; [|discriminate].
  inversion He. eauto.
Qed.

(** X12: the two dicts returned have the same keys: each triple
    [(a, p, t)] with [1 <= a <= n_actions], [1 <= p <= n_participants] and
    [1 <= t <= n_trials] once, and nothing else - [n_actions *
    n_participants * n_trials] entries when the three are not negative. *)
Theorem feature_dicts_cover_every_clip n_actions n_participants n_trials
    default_params custom_params central scaled :
  (get_cs_moment_features MotionHistoryBuilder get_central_moments
     get_scaled_moments open_video) n_actions n_participants n_trials default_params custom_params
  = Ok (central, scaled) →
  central.*1 = scaled.*1
  ∧ NoDup central.*1
  ∧ (∀ k, k ∈ central.*1
          ↔ (1 ≤ k.1.1 ≤ n_actions) ∧ (1 ≤ k.1.2 ≤ n_participants)
            ∧ (1 ≤ k.2 ≤ n_trials))
  ∧ length central
    = (Z.to_nat n_actions * (Z.to_nat n_participants * Z.to_nat n_trials))%nat.
Proof.
  intros Hok.
  destruct (features_of_Ok_inv _ _ _ _ _ _ _ Hok) as (entries & Hentries & -> & ->).
  assert (Hkeys : entries.*1 = clip_keys n_actions n_participants n_trials).
  { clear Hok. induction Hentries as [|k e ks es (mhi & _ & ->) _ IH]; [reflexivity|].
    cbn [fmap list_fmap fst]. now rewrite <- IH. }
  rewrite <- !list_fmap_compose.
  assert (Hc : (fst ∘ (fun e : key * (list float64 * list float64) => (e.1, e.2.1)) <$> entries)
               = clip_keys n_actions n_participants n_trials)
    by (rewrite <- Hkeys; now apply list_fmap_ext).
  assert (Hs : (fst ∘ (fun e : key * (list float64 * list float64) => (e.1, e.2.2)) <$> entries)
               = clip_keys n_actions n_participants n_trials)
    by (rewrite <- Hkeys; now apply list_fmap_ext).
  rewrite Hc, Hs. split; [reflexivity|]. split; [apply clip_keys_NoDup|].
  split; [intros k; apply clip_keys_spec|].
  rewrite length_fmap, <- clip_keys_length, <- Hkeys. now rewrite length_fmap.
Qed.

(** X13: every entry of the returned dicts is made from the MHI that the
    driver builds for the video of its clip: the moments of the MHI
    followed by the moments of [np.uint8(mhi > 0)].  With accessors that
    return 8 values, every descriptor has 16. *)
Theorem descriptors_come_from_the_clip_mhi n_actions n_participants n_trials
    default_params custom_params central scaled :
  (get_cs_moment_features MotionHistoryBuilder get_central_moments
     get_scaled_moments open_video) n_actions n_participants n_trials default_params custom_params
  = Ok (central, scaled) →
  (∀ k d, (k, d) ∈ central →
     ∃ mhi, (clip_mhi MotionHistoryBuilder open_video) default_params custom_params k = Ok mhi
            ∧ d = get_central_moments (Float64Image mhi)
                  ++ get_central_moments (Uint8Image (mei_of_mhi mhi)))
  ∧ (∀ k d, (k, d) ∈ scaled →
       ∃ mhi, (clip_mhi MotionHistoryBuilder open_video) default_params custom_params k = Ok mhi
              ∧ d = get_scaled_moments (Float64Image mhi)
                    ++ get_scaled_moments (Uint8Image (mei_of_mhi mhi)))
  ∧ ((∀ img, length (get_central_moments img) = 8%nat) →
     Forall (fun e => length e.2 = 16%nat) central)
  ∧ ((∀ img, length (get_scaled_moments img) = 8%nat) →
     Forall (fun e => length e.2 = 16%nat) scaled).
Proof.
  intros Hok.
  destruct (features_of_Ok_inv _ _ _ _ _ _ _ Hok) as (entries & Hentries & -> & ->).
  assert (Hentry : ∀ e, e ∈ entries →
            ∃ mhi, (clip_mhi MotionHistoryBuilder open_video) default_params custom_params e.1 = Ok mhi
                   ∧ e.2 = clip_features get_central_moments get_scaled_moments mhi).
  { intros e Hin. apply list_elem_of_lookup in Hin as [i Hi].
    destruct (Forall2_lookup_r _ _ _ _ _ Hentries Hi) as (k & _ & mhi & Hmhi & ->).
    exists mhi. auto. }
  assert (Hcentral : ∀ k d, (k, d) ∈ (fun e : key * (list float64 * list float64) =>
                                         (e.1, e.2.1)) <$> entries →
            ∃ mhi, (clip_mhi MotionHistoryBuilder open_video) default_params custom_params k = Ok mhi
                   ∧ d = get_central_moments (Float64Image mhi)
                         ++ get_central_moments (Uint8Image (mei_of_mhi mhi))).
  { intros k d Hin. apply list_elem_of_fmap in Hin as (e & Heq & Hin).
    inversion Heq; subst. destruct (Hentry e Hin) as (mhi & Hmhi & ->).
    exists mhi. auto. }
  assert (Hscaled : ∀ k d, (k, d) ∈ (fun e : key * (list float64 * list float64) =>
                                        (e.1, e.2.2)) <$> entries →
            ∃ mhi, (clip_mhi MotionHistoryBuilder open_video) default_params custom_params k = Ok mhi
                   ∧ d = get_scaled_moments (Float64Image mhi)
                         ++ get_scaled_moments (Uint8Image (mei_of_mhi mhi))).
  { intros k d Hin. apply list_elem_of_fmap in Hin as (e & Heq & Hin).
    inversion Heq; subst. destruct (Hentry e Hin) as (mhi & Hmhi & ->).
    exists mhi. auto. }
  split; [exact Hcentral|]. split; [exact Hscaled|]. split.
  - intros Hlen. apply Forall_forall. intros [k d] Hin.
    destruct (Hcentral k d Hin) as (mhi & _ & ->).
    cbn [snd]. now rewrite length_app, !Hlen.
  - intros Hlen. apply Forall_forall. intros [k d] Hin.
    destruct (Hscaled k d Hin) as (mhi & _ & ->).
    cbn [snd]. now rewrite length_app, !Hlen.
Qed.



End FeatureTables.

Lemma feature_dicts_cover_every_clip_witness :
  ∃ central scaled,
    get_cs_moment_features Ps8.MotionHistoryBuilder Sample.raw_moments Sample.raw_moments
      (fun _ => Sample.video) 1 1 2 Sample.params ∅ = Ok (central, scaled)
    ∧ central.*1 = [(1, 1, 1); (1, 1, 2)]
    ∧ length central = (Z.to_nat 1 * (Z.to_nat 1 * Z.to_nat 2))%nat.
Proof.
  destruct (get_cs_moment_features Ps8.MotionHistoryBuilder Sample.raw_moments
              Sample.raw_moments (fun _ => Sample.video) 1 1 2 Sample.params ∅)
    as [[central scaled]|e] eqn:Hrun; [|vm_compute in Hrun; discriminate Hrun].
  exists central, scaled. split; [reflexivity|]. split.
  - vm_compute in Hrun. inversion Hrun. reflexivity.
  - eapply feature_dicts_cover_every_clip. exact Hrun.
Defined.

Lemma descriptors_come_from_the_clip_mhi_witness :
  ∃ central scaled,
    get_cs_moment_features Ps8.MotionHistoryBuilder Sample.raw_moments Sample.raw_moments
      (fun _ => Sample.video) 1 1 2 Sample.params ∅ = Ok (central, scaled)
    ∧ Forall (fun e => length e.2 = 16%nat) central.
Proof.
  destruct (get_cs_moment_features Ps8.MotionHistoryBuilder Sample.raw_moments
              Sample.raw_moments (fun _ => Sample.video) 1 1 2 Sample.params ∅)
    as [[central scaled]|e] eqn:Hrun; [|vm_compute in Hrun; discriminate Hrun].
  exists central, scaled. split; [reflexivity|].
  destruct (descriptors_come_from_the_clip_mhi Ps8.MotionHistoryBuilder
              Sample.raw_moments Sample.raw_moments (fun _ => Sample.video)
              1 1 2 Sample.params ∅ central scaled Hrun) as (_ & _ & Hlen & _).
  apply Hlen. intros img. unfold Sample.raw_moments. now rewrite length_fmap.
Defined.


